(** * common-iface: the common interface of a list of Go types

    A shallow embedding of [main.go] (the current program and the older
    version kept after it in the same file) and the properties of its
    argument parsing, type resolution, pointer normalisation, method-set
    intersection and rendering.

    The program is glue over [go/types], [go/loader], [go/format] and
    [go/ast].  Those packages are not part of the repository: what the
    program asks of them is collected in the record [Host], and every
    definition below takes the host as a parameter. *)

From Stdlib Require Import ZArith String Ascii.
From stdpp Require Import base option list gmap strings sorting.

Local Open Scope Z_scope.

(** ** Go strings

    A Go string is a sequence of bytes; [string] is a list of [ascii],
    one per byte. *)

Module strings_.

(** [strings.LastIndexByte(s, c)]: the index of the last [c] in [s],
    or -1. *)
Fixpoint LastIndexByte (s : string) (c : ascii) : Z :=
  match s with
  | EmptyString => -1
  | String a s' =>
      let r := LastIndexByte s' c in
      if 0 <=? r then r + 1
      else if Ascii.eqb a c then 0 else -1
  end.

(** The slice expressions [s[:i]] and [s[i:]] for [0 <= i <= len(s)]. *)
Definition slice_to (s : string) (i : Z) : string :=
  String.substring 0 (Z.to_nat i) s.

Definition slice_from (s : string) (i : Z) : string :=
  String.substring (Z.to_nat i) (String.length s - Z.to_nat i) s.

(** [strings.TrimPrefix(s, prefix)]. *)
Definition TrimPrefix (s prefix : string) : string :=
  if String.prefix prefix s
  then slice_from s (Z.of_nat (String.length prefix))
  else s.

(** [bytes.Index(s, sep)]: the index of the first [sep] in [s], or -1. *)
Definition Index (s sep : string) : Z :=
  match String.index 0 sep s with
  | Some n => Z.of_nat n
  | None => -1
  end.

End strings_.

(** ** Command-line arguments *)

Record argType := { pkg : string; typ : string }.

(** The calls of [log.Fatalf], by format string and arguments. *)
Inductive Fatal (Err Obj Ty : Type) :=
  | ExpectedPkgType (arg : string)
  | ErrorLoading (err : Err)
  | LookupFailed (qualified : string)
  | NotDeclaredType (obj : Obj) (ty : Ty).
Arguments ExpectedPkgType {Err Obj Ty} arg.
Arguments ErrorLoading {Err Obj Ty} err.
Arguments LookupFailed {Err Obj Ty} qualified.
Arguments NotDeclaredType {Err Obj Ty} obj ty.

Definition fatal_format {Err Obj Ty} (f : Fatal Err Obj Ty) : string :=
  match f with
  | ExpectedPkgType _ => "Expected [pkg].[type], not %q"
  | ErrorLoading _ => "Error loading packages: %v"
  | LookupFailed _ => "Lookup of %q failed"
  | NotDeclaredType _ _ => "%q is not a declared type, it's a %q"
  end.

(** One iteration of the loop over [flag.Args()] (main.go, lines 72-82):
    [None] is the [log.Fatalf] of line 75. *)
Definition splitArg (arg : string) : option argType :=
  let idx := strings_.LastIndexByte arg "." in
  if idx <? 1 then None
  else Some {| pkg := strings_.slice_to arg idx;
               typ := strings_.slice_from arg (idx + 1) |}.

(** The whole loop: the pairs of the arguments, or the first argument
    that is refused. *)
Fixpoint parseArgs (args : list string) : string + list argType :=
  match args with
  | [] => inr []
  | arg :: rest =>
      match splitArg arg with
      | None => inl arg
      | Some a =>
          match parseArgs rest with
          | inl bad => inl bad
          | inr l => inr (a :: l)
          end
      end
  end.

(** ** The host: go/types, go/loader, go/ast and go/format *)

(** [types.Type], as far as the program tells types apart: declared
    ([*types.Named]) types, pointer types, and every other type. *)
Inductive GoType :=
  | Named (name : string)
  | Pointer (elem : GoType)
  | Unnamed (descr : string).

Global Instance GoType_eq_dec : EqDecision GoType.
Proof. solve_decision. Defined.

(** [types.Object]: what a scope lookup or a method selection yields. *)
Inductive ObjKind := TypeName | Var | Func | Const.

Record Object := {
  Kind : ObjKind;
  Name : string;
  Pos : Z;            (* token.Pos *)
  ObjType : GoType    (* obj.Type(), read for the objects of a scope *)
}.

(** [*types.Selection] of a method set: [method.Obj()] and
    [method.Type().( *types.Signature)]. *)
Record Selection (Sig : Type) := { Obj : Object; SelType : Sig }.
Arguments Obj {Sig} s.
Arguments SelType {Sig} s.

(** The nodes of a path of [PathEnclosingInterval], with the [Doc] field
    of those the program inspects ([nil] is [None]; a comment group is the
    list of its [comment.Text]). *)
Inductive Node :=
  | FuncDecl (Doc : option (list string))
  | Field (Doc : option (list string))
  | OtherNode.

(** [*loader.PackageInfo]: [pkg.Pkg.Scope().Lookup]. *)
Record PackageInfo := { Lookup : string → option Object }.

(** [*loader.Program]. *)
Record Program := {
  Imported : gmap string PackageInfo;
  PathEnclosingInterval : Z → list Node
}.

(** [loader.Config]: whether [parser.ParseComments] is set, and the
    packages given to [conf.Import], in order. *)
Record Config := { ParseComments : bool; ImportPkgs : list string }.

Record Host := {
  Signature : Type;                 (* *types.Signature *)
  LoadError : Type;
  Load : Config → LoadError + Program;
  IsInterface : GoType → bool;      (* types.IsInterface *)
  NewMethodSet : GoType → list (Selection Signature);
  Identical : Signature → Signature → bool;   (* types.Identical *)
  (* types.Implements(t, types.NewInterface(funcs, nil).Complete()) *)
  Implements : GoType → list (string * Signature) → bool;
  IsExported : string → bool;       (* ast.IsExported *)
  (* types.TypeString(sig, ( *types.Package).Name) *)
  SignatureString : Signature → string;
  (* types.TypeString(iface, ( *types.Package).Name) *)
  InterfaceString : list (string * Signature) → string;
  TypeFormat : GoType → string;     (* fmt's %v of a types.Type *)
  formatSource : string → option string   (* format.Source; None: an error *)
}.

Record fn (Sig : Type) := { fnSignature : Sig; fnObj : Object }.
Arguments fnSignature {Sig} f.
Arguments fnObj {Sig} f.

Record Flags := { comments : bool; header : bool; private : bool }.

(** How a run ends before the last statement of [main]. *)
Inductive Stop (h : Host) :=
  | UsageExit                                          (* flag.Usage(); os.Exit(1) *)
  | Fatalf (f : Fatal (LoadError h) Object GoType)     (* log.Fatalf *)
  | Panic.                                             (* a run-time panic *)
Arguments UsageExit {h}.
Arguments Fatalf {h} f.
Arguments Panic {h}.

(** What a run leaves: what it wrote on standard output, and how it ended
    ([None]: [main] returned).  Every write to standard output is made by
    the last statements of [main], so a run that stops writes nothing. *)
Record Outcome (h : Host) := { stdout : string; stopped : option (Stop h) }.
Arguments stdout {h} o.
Arguments stopped {h} o.

Definition stop {h} (s : Stop h) : Outcome h :=
  {| stdout := EmptyString; stopped := Some s |}.
Definition printed {h} (out : string) : Outcome h :=
  {| stdout := out; stopped := None |}.

Definition tab : string := String "009"%char EmptyString.
Definition nl : string := String "010"%char EmptyString.

(** Successive writes to one stream. *)
Definition concatAll (texts : list string) : string :=
  foldr String.append EmptyString texts.

(** [fmt.Fprintln(buf, s)] appends [s] and a newline. *)
Definition Fprintln (buf s : string) : string := buf +:+ s +:+ nl.

(** ** The program (main.go, lines 57-222) *)

Section program.
Context (h : Host).

Abbreviation Sig := (Signature h).
Abbreviation methods := (gmap string (fn Sig)).

(** Lines 92-103: one pair to its declared type. *)
Definition resolveArg (prog : Program) (a : argType) : Stop h + GoType :=
  match Imported prog !! pkg a with
  | None => inl Panic       (* [pkg] is nil: [pkg.Pkg] panics *)
  | Some info =>
      match Lookup info (typ a) with
      | None => inl (Fatalf (LookupFailed (pkg a +:+ "." +:+ typ a)))
      | Some obj =>
          match ObjType obj with
          | Named n => inr (Named n)
          | t => inl (Fatalf (NotDeclaredType obj t))
          end
      end
  end.

Fixpoint resolveArgs (prog : Program) (argTypes : list argType)
  : Stop h + list GoType :=
  match argTypes with
  | [] => inr []
  | a :: rest =>
      match resolveArg prog a with
      | inl s => inl s
      | inr t =>
          match resolveArgs prog rest with
          | inl s => inl s
          | inr ts => inr (t :: ts)
          end
      end
  end.

(** Lines 108-112: wrap the type in a pointer. *)
Definition isPtr (t : GoType) : bool :=
  match t with Pointer _ => true | _ => false end.

Definition normalize (t : GoType) : GoType :=
  if negb (isPtr t) && negb (IsInterface h t) then Pointer t else t.

(** Lines 114-124: the map from name to method signature. *)
Definition addMethod (private : bool) (sigs : methods)
    (method : Selection Sig) : methods :=
  let obj := Obj method in
  let name := Name obj in
  if private || IsExported h name
  then <[name := {| fnSignature := SelType method; fnObj := obj |}]> sigs
  else sigs.

Definition methodSigs (private : bool) (t : GoType) : methods :=
  foldl (addMethod private) ∅ (NewMethodSet h t).

(** Lines 126-136.  [keeps sigs k v] is the negation of the condition
    under which [k] is deleted from [common]. *)
Definition keeps (sigs : methods) (k : string) (v : fn Sig) : bool :=
  match sigs !! k with
  | Some s => Identical h (fnSignature v) (fnSignature s)
  | None => false
  end.

Definition intersect (common sigs : methods) : methods :=
  filter (λ kv, Is_true (keeps sigs kv.1 kv.2)) common.

(** One iteration of the loop over [typs]; [common] is [None] while it
    is the nil map. *)
Definition commonStep (private : bool) (common : option methods)
    (t : GoType) : option methods :=
  let sigs := methodSigs private (normalize t) in
  match common with
  | None => Some sigs
  | Some c => Some (intersect c sigs)
  end.

Definition commonLoop (private : bool) (typs : list GoType)
  : option methods :=
  foldl (commonStep private) None typs.

(** Ranging over, or reading, the nil map is ranging over the empty map. *)
Definition commonMap (common : option methods) : methods :=
  default ∅ common.

Definition commonMethods (private : bool) (typs : list GoType) : methods :=
  commonMap (commonLoop private typs).

(** Lines 139-144: the sorted list of method names. *)
Definition sortedNames (common : methods) : list string :=
  merge_sort String.le (map_to_list common).*1.

(** Lines 157-176: the doc comment of a method. *)
Definition nodeDoc (node : Node) : option (list string) :=
  match node with
  | FuncDecl doc => doc
  | Field doc => doc
  | OtherNode => None
  end.

Fixpoint firstDoc (nodes : list Node) : list string :=
  match nodes with
  | [] => []
  | node :: rest =>
      match nodeDoc node with
      | Some doc => doc
      | None => firstDoc rest
      end
  end.

(** [path[:len(path)-1]] panics on the empty path. *)
Definition docComment (prog : Program) (method : fn Sig)
  : Stop h + list string :=
  let pos := Pos (fnObj method) in
  match PathEnclosingInterval prog pos with
  | [] => inl Panic
  | path => inr (firstDoc (removelast path))
  end.
(** Lines 153-181: what one iteration of the loop over [names] writes to
    the buffer.  [common[name]] of a missing name is the zero [fn], whose
    nil fields make the calls that follow panic. *)
Definition methodText (fl : Flags) (prog : Program) (common : methods)
    (name : string) : Stop h + string :=
  match common !! name with
  | None => inl Panic
  | Some method =>
      match (if comments fl then docComment prog method else inr []) with
      | inl s => inl s
      | inr doc =>
          let sig := SignatureString h (fnSignature method) in
          inr (foldl Fprintln EmptyString doc
               +:+ tab +:+ name +:+ strings_.TrimPrefix sig "func" +:+ nl)
      end
  end.

Fixpoint writeMethods (fl : Flags) (prog : Program) (common : methods)
    (names : list string) (buf : string) : Stop h + string :=
  match names with
  | [] => inr buf
  | name :: rest =>
      match methodText fl prog common name with
      | inl s => inl s
      | inr text => writeMethods fl prog common rest (buf +:+ text)
      end
  end.

(** Lines 185-195: pretty-print, then cut the package header off. *)
Definition finish (src : string) : string :=
  let src := default src (formatSource h src) in
  let idx := strings_.Index src "interface" in
  if 0 <=? idx then strings_.slice_from src idx else src.

(** Lines 146-195. *)
Definition renderInterface (fl : Flags) (prog : Program) (common : methods)
  : Stop h + string :=
  let buf := Fprintln EmptyString "package common;type T interface{" in
  match writeMethods fl prog common (sortedNames common) buf with
  | inl s => inl s
  | inr buf => inr (finish (Fprintln buf "}"))
  end.

(** Lines 200-206: the methods of [types.NewInterface(funcs, nil)], which
    sorts them by name, whatever the order in which the map was ranged
    over. *)
Definition byName {A} (x y : string * A) : Prop := String.le x.1 y.1.

Definition ifaceMethods (common : methods) : list (string * Sig) :=
  merge_sort byName (map_to_list (fnSignature <$> common)).

(** Lines 209-217: the header. *)
Definition shown (iface : list (string * Sig)) (typ : GoType) : GoType :=
  match typ with
  | Pointer elem => if Implements h elem iface then elem else typ
  | _ => typ
  end.

Definition headerLine (iface : list (string * Sig)) (typ : GoType) : string :=
  "// " +:+ TypeFormat h (shown iface typ) +:+ nl.

Definition headerText (typs : list GoType) (common : methods) : string :=
  let iface := ifaceMethods common in
  "// Common interface of" +:+ nl
  +:+ concatAll (headerLine iface <$> typs).

(** [main], from the flags and [flag.Args()]. *)
Definition main (fl : Flags) (args : list string) : Outcome h :=
  match args with
  | [] => stop UsageExit
  | _ :: _ =>
      match parseArgs args with
      | inl arg => stop (Fatalf (ExpectedPkgType arg))
      | inr argTypes =>
          let conf := {| ParseComments := comments fl;
                         ImportPkgs := pkg <$> argTypes |} in
          match Load h conf with
          | inl err => stop (Fatalf (ErrorLoading err))
          | inr prog =>
              match resolveArgs prog argTypes with
              | inl s => stop s
              | inr typs =>
                  let common := commonMethods (private fl) typs in
                  let typs := normalize <$> typs in
                  match renderInterface fl prog common with
                  | inl s => stop s
                  | inr src =>
                      printed ((if header fl then headerText typs common
                                else EmptyString) +:+ src)
                  end
              end
          end
      end
  end.

End program.

(** ** The older program (main.go, lines 233-380)

    It keeps the signatures alone in [common], has no doc comments, and
    prints the interface type that [types.NewInterface] builds. *)

Module Old.
Section program.
Context (h : Host).

Abbreviation Sig := (Signature h).
Abbreviation methods := (gmap string Sig).

Record Flags := { comment : bool; private : bool }.

(** Lines 312-321. *)
Definition addMethod (private : bool) (sigs : methods)
    (method : Selection Sig) : methods :=
  let name := Name (Obj method) in
  if private || IsExported h name
  then <[name := SelType method]> sigs
  else sigs.

Definition methodSigs (private : bool) (t : GoType) : methods :=
  foldl (addMethod private) ∅ (NewMethodSet h t).

(** Lines 323-333. *)
Definition keeps (sigs : methods) (k : string) (v : Sig) : bool :=
  match sigs !! k with
  | Some s => Identical h v s
  | None => false
  end.

Definition intersect (common sigs : methods) : methods :=
  filter (λ kv, Is_true (keeps sigs kv.1 kv.2)) common.

Definition commonStep (private : bool) (common : option methods)
    (t : GoType) : option methods :=
  let sigs := methodSigs private (normalize h t) in
  match common with
  | None => Some sigs
  | Some c => Some (intersect c sigs)
  end.

Definition commonLoop (private : bool) (typs : list GoType)
  : option methods :=
  foldl (commonStep private) None typs.

Definition commonMethods (private : bool) (typs : list GoType) : methods :=
  default ∅ (commonLoop private typs).

(** Lines 336-343. *)
Definition ifaceMethods (common : methods) : list (string * Sig) :=
  merge_sort byName (map_to_list common).

(** Lines 345-358. *)
Definition renderInterface (common : methods) : string :=
  finish h ("package common;type T "
            +:+ InterfaceString h (ifaceMethods common)).

(** Lines 361-371. *)
Definition headerText (typs : list GoType) (common : methods) : string :=
  let iface := ifaceMethods common in
  "// Common interface of" +:+ nl
  +:+ concatAll (headerLine h iface <$> typs).

Definition main (fl : Flags) (args : list string) : Outcome h :=
  match args with
  | [] => stop UsageExit
  | _ :: _ =>
      match parseArgs args with
      | inl arg => stop (Fatalf (ExpectedPkgType arg))
      | inr argTypes =>
          let conf := {| ParseComments := false;
                         ImportPkgs := pkg <$> argTypes |} in
          match Load h conf with
          | inl err => stop (Fatalf (ErrorLoading err))
          | inr prog =>
              match resolveArgs h prog argTypes with
              | inl s => stop s
              | inr typs =>
                  let common := commonMethods (private fl) typs in
                  let typs := normalize h <$> typs in
                  printed ((if comment fl then headerText typs common
                            else EmptyString) +:+ renderInterface common)
              end
          end
      end
  end.

End program.
End Old.

(** ** A small host

    Six declared types, a variable and a constant, enough to run the
    program on: [bytes.Reader] and [bufio.Reader] (structs whose methods
    have pointer receivers), [time.Duration] (a value receiver),
    [demo.Unit] (a struct without methods), [io.Reader] and [demo.Empty]
    (interfaces), the variable [io.EOF] of type [error] and the constant
    [io.SeekStart]. *)

Module Demo.

Inductive sig := SRead (param : string) | SReadByte | SReadString | SString
               | SError | SReset.

Definition sigEq (s1 s2 : sig) : bool :=
  match s1, s2 with
  | SRead _, SRead _ => true      (* parameter names do not matter *)
  | SReadByte, SReadByte | SReadString, SReadString | SString, SString
  | SError, SError | SReset, SReset => true
  | _, _ => false
  end.

Definition sigString (s : sig) : string :=
  match s with
  | SRead p => "func(" +:+ p +:+ " []byte) (n int, err error)"
  | SReadByte => "func() (byte, error)"
  | SReadString => "func(delim byte) (string, error)"
  | SString => "func() string"
  | SError => "func() string"
  | SReset => "func()"
  end.

Definition method (name : string) (pos : Z) (s : sig) : Selection sig :=
  {| Obj := {| Kind := Func; Name := name; Pos := pos;
               ObjType := Unnamed "func" |};
     SelType := s |}.

Definition methodSet (t : GoType) : list (Selection sig) :=
  match t with
  | Pointer (Named "bytes.Reader") =>
      [method "Read" 101 (SRead "b"); method "ReadByte" 102 SReadByte;
       method "reset" 103 SReset]
  | Pointer (Named "bufio.Reader") =>
      [method "Read" 201 (SRead "p"); method "ReadByte" 202 SReadByte;
       method "ReadString" 203 SReadString; method "reset" 204 SReset]
  | Named "io.Reader" => [method "Read" 301 (SRead "p")]
  | Named "time.Duration" | Pointer (Named "time.Duration") =>
      [method "String" 401 SString]
  | Named "error" => [method "Error" 0 SError]
  | _ => []
  end.

Definition isInterface (t : GoType) : bool :=
  match t with
  | Named "io.Reader" | Named "demo.Empty" | Named "error" => true
  | _ => false
  end.

Definition implements (t : GoType) (iface : list (string * sig)) : bool :=
  forallb (λ m : string * sig,
    existsb (λ s, String.eqb (Name (Obj s)) m.1 && sigEq (SelType s) m.2)
            (methodSet t)) iface.

Definition isExported (name : string) : bool :=
  match name with
  | String c _ => (("A" <=? c) && (c <=? "Z"))%char
  | EmptyString => false
  end.

Definition typeName (name : string) (t : GoType) : Object :=
  {| Kind := TypeName; Name := name; Pos := 1; ObjType := t |}.

Definition scope (pkg name : string) : option Object :=
  match pkg, name with
  | "bytes", "Reader" => Some (typeName name (Named "bytes.Reader"))
  | "bufio", "Reader" => Some (typeName name (Named "bufio.Reader"))
  | "time", "Duration" => Some (typeName name (Named "time.Duration"))
  | "io", "Reader" => Some (typeName name (Named "io.Reader"))
  | "demo", "Empty" => Some (typeName name (Named "demo.Empty"))
  | "demo", "Unit" => Some (typeName name (Named "demo.Unit"))
  | "io", "EOF" =>
      Some {| Kind := Var; Name := name; Pos := 2; ObjType := Named "error" |}
  | "io", "SeekStart" =>
      Some {| Kind := Const; Name := name; Pos := 3;
              ObjType := Unnamed "untyped int" |}
  | _, _ => None
  end.

Definition known (pkg : string) : bool :=
  bool_decide (pkg ∈ ["bytes"; "bufio"; "time"; "io"; "demo"]).

(** The paths of the method declarations; doc comments are there when
    the files were parsed with [parser.ParseComments]. *)
Definition path (withDocs : bool) (pos : Z) : list Node :=
  let doc (text : string) := if withDocs then Some [text] else None in
  match pos with
  | 101 => [OtherNode; FuncDecl (doc "// Read implements io.Reader."); OtherNode]
  | 201 => [OtherNode; FuncDecl (doc "// Read reads data into p."); OtherNode]
  | 102 | 202 => [OtherNode; FuncDecl None; OtherNode]
  | 301 => [OtherNode; Field (doc "// Read reads into p."); OtherNode;
            OtherNode; OtherNode]
  | 401 => [OtherNode; FuncDecl (doc "// String formats d."); OtherNode]
  | _ => []
  end.

Definition load (conf : Config) : string + Program :=
  match filter (λ p, ¬ Is_true (known p)) (ImportPkgs conf) with
  | [] => inr {| Imported :=
                   list_to_map ((λ p, (p, {| Lookup := scope p |}))
                                <$> ImportPkgs conf);
                 PathEnclosingInterval := path (ParseComments conf) |}
  | p :: _ => inl p
  end.

Fixpoint typeFormat (t : GoType) : string :=
  match t with
  | Named n => n
  | Pointer e => "*" +:+ typeFormat e
  | Unnamed d => d
  end.

(** [types.TypeString] of an interface: its methods, without [func],
    separated by semicolons on one line. *)
Definition interfaceString (iface : list (string * sig)) : string :=
  "interface{"
  +:+ String.concat "; "
        ((λ m : string * sig,
            m.1 +:+ strings_.TrimPrefix (sigString m.2) "func") <$> iface)
  +:+ "}".

(** The host, for a given [format.Source]. *)
Definition host (format : string → option string) : Host :=
  {| Signature := sig; LoadError := string; Load := load;
     IsInterface := isInterface; NewMethodSet := methodSet;
     Identical := sigEq; Implements := implements;
     IsExported := isExported; SignatureString := sigString;
     InterfaceString := interfaceString; TypeFormat := typeFormat;
     formatSource := format |}.

(** A host whose [format.Source] reports an error: the program then
    prints the buffer as it wrote it. *)
Definition raw : Host := host (λ _, None).

(** What gofmt prints for the two sources of an interface without
    methods: braces on two lines stay on two lines, [{}] stays [{}]. *)
Definition gofmtEmpty (src : string) : option string :=
  if String.eqb src ("package common;type T interface{" +:+ nl +:+ "}" +:+ nl)
  then Some ("package common" +:+ nl +:+ nl
             +:+ "type T interface {" +:+ nl +:+ "}" +:+ nl)
  else if String.eqb src "package common;type T interface{}"
  then Some ("package common" +:+ nl +:+ nl +:+ "type T interface{}" +:+ nl)
  else None.

Definition flags (c hd p : bool) : Flags :=
  {| comments := c; header := hd; private := p |}.

End Demo.


(** ** Words of the specification *)

(** [s] contains no ['.']. *)
Definition noDot (s : string) : Prop :=
  ∀ i : nat, String.get i s ≠ Some "."%char.

(** [arg] contains no ['.'], or its last ['.'] is at index 0. *)
Definition refused (arg : string) : Prop :=
  ∀ i : nat, String.get i arg = Some "."%char → i = 0%nat.

(** The entry a method selection puts in the map of its type. *)
Definition entry {Sig} (method : Selection Sig) : fn Sig :=
  {| fnSignature := SelType method; fnObj := Obj method |}.

Definition methodName {Sig} (method : Selection Sig) : string :=
  Name (Obj method).

(** The name-to-signature map of a listed type: that of its normalized
    form. *)
Definition typeSigs (h : Host) (private : bool) (t : GoType)
  : gmap string (fn (Signature h)) :=
  methodSigs h private (normalize h t).

(** The name is exported, or all methods are asked for. *)
Definition wanted (h : Host) (private : bool) (name : string) : bool :=
  private || IsExported h name.

(** The header line of a listed, declared type [t], in the words of the
    specification: the type itself when it is an interface or already
    implements the interface, its pointer otherwise. *)
Definition declaredLine (h : Host) (iface : list (string * Signature h))
    (t : GoType) : string :=
  "// "
  +:+ TypeFormat h (if IsInterface h t then t
                    else if Implements h t iface then t else Pointer t)
  +:+ nl.

(** A pair the program cannot resolve: the name is not in the scope of
    its package, or the type of the object found is not a declared type. *)
Definition unresolved (prog : Program) (a : argType) : Prop :=
  ∃ info, Imported prog !! pkg a = Some info
    ∧ match Lookup info (typ a) with
      | None => True
      | Some obj => ∀ n, ObjType obj ≠ Named n
      end.

(** The line the current program writes for a method of the interface. *)
Definition methodLine (h : Host) (m : string * Signature h) : string :=
  tab +:+ m.1 +:+ strings_.TrimPrefix (SignatureString h m.2) "func" +:+ nl.

(** [arg] is cut at its last ['.'] into the pair [a]: the package before
    it, which is not empty, and the type name after it, which has no
    ['.']. *)
Definition splitsInto (arg : string) (a : argType) : Prop :=
  arg = pkg a +:+ "." +:+ typ a ∧ pkg a ≠ EmptyString ∧ noDot (typ a).

(** * Properties *)

(** ** Splitting an argument *)

Section split.
Local Open Scope nat_scope.

Lemma append_nil s : EmptyString +:+ s = s.
Proof. reflexivity. Qed.

Lemma append_cons a p s : String a p +:+ s = String a (p +:+ s).
Proof. reflexivity. Qed.

Lemma LastIndexByte_bounds s c :
  (-1 ≤ strings_.LastIndexByte s c < Z.of_nat (String.length s))%Z.
Proof.
  induction s as [|a s IH]; simpl; [lia|].
  destruct (Z.leb_spec 0 (strings_.LastIndexByte s c)); [lia|].
  destruct (Ascii.eqb a c); lia.
Qed.

Lemma LastIndexByte_get s c :
  (0 ≤ strings_.LastIndexByte s c)%Z →
  String.get (Z.to_nat (strings_.LastIndexByte s c)) s = Some c.
Proof.
  induction s as [|a s IH]; simpl; [lia|].
  destruct (Z.leb_spec 0 (strings_.LastIndexByte s c)) as [Hr|Hr].
  - intros _. rewrite Z2Nat.inj_add by lia.
    rewrite Nat.add_comm. simpl. by apply IH.
  - destruct (Ascii.eqb a c) eqn:Hac; [|lia].
    apply Ascii.eqb_eq in Hac as ->. done.
Qed.

Lemma LastIndexByte_last s c i :
  String.get i s = Some c → (Z.of_nat i ≤ strings_.LastIndexByte s c)%Z.
Proof.
  revert i. induction s as [|a s IH]; intros i; simpl; [done|].
  destruct i as [|i].
  - intros [= ->]. pose proof (LastIndexByte_bounds s c).
    destruct (Z.leb_spec 0 (strings_.LastIndexByte s c)); [lia|].
    by rewrite Ascii.eqb_refl.
  - intros Hi%IH.
    destruct (Z.leb_spec 0 (strings_.LastIndexByte s c)); lia.
Qed.

Lemma LastIndexByte_app p s c :
  strings_.LastIndexByte (p +:+ s) c =
  if (0 <=? strings_.LastIndexByte s c)%Z
  then (Z.of_nat (String.length p) + strings_.LastIndexByte s c)%Z
  else strings_.LastIndexByte p c.
Proof.
  induction p as [|a p IH]; rewrite ?append_nil, ?append_cons; simpl.
  - destruct (Z.leb_spec 0 (strings_.LastIndexByte s c)); [done|].
    pose proof (LastIndexByte_bounds s c). lia.
  - rewrite IH. pose proof (LastIndexByte_bounds p c).
    destruct (Z.leb_spec 0 (strings_.LastIndexByte s c)).
    + destruct (Z.leb_spec 0 (Z.of_nat (String.length p)
                              + strings_.LastIndexByte s c)%Z); lia.
    + done.
Qed.

Lemma substring_prefix p s :
  String.substring 0 (String.length p) (p +:+ s) = p.
Proof.
  induction p as [|a p IH]; rewrite ?append_nil, ?append_cons; simpl;
    [by destruct s|]. by rewrite IH.
Qed.

Lemma substring_all s : String.substring 0 (String.length s) s = s.
Proof. induction s as [|a s IH]; simpl; [done|]. by rewrite IH. Qed.

Lemma substring_suffix p s :
  String.substring (String.length p) (String.length s) (p +:+ s) = s.
Proof.
  induction p as [|a p IH]; rewrite ?append_nil, ?append_cons; simpl;
    [apply substring_all|done].
Qed.

Lemma length_app p s :
  String.length (p +:+ s) = String.length p + String.length s.
Proof.
  induction p as [|a p IH]; rewrite ?append_nil, ?append_cons; simpl; [done|].
  by rewrite IH.
Qed.

Lemma append_assoc p q s : (p +:+ q) +:+ s = p +:+ q +:+ s.
Proof.
  induction p as [|a p IH]; rewrite ?append_nil, ?append_cons; [done|].
  by rewrite IH.
Qed.

Lemma get_app_r p s j : String.get (String.length p + j) (p +:+ s) = String.get j s.
Proof.
  induction p as [|a p IH]; rewrite ?append_nil, ?append_cons; simpl; done.
Qed.

Lemma length_substring_0 s i :
  i ≤ String.length s → String.length (String.substring 0 i s) = i.
Proof.
  revert i. induction s as [|a s IH]; intros [|i] Hi; simpl in *; try lia.
  rewrite IH; lia.
Qed.

(** A string is cut in three at any of its characters. *)
Lemma cut_at s c i :
  String.get i s = Some c →
  s = String.substring 0 i s
      +:+ String c (String.substring (S i) (String.length s - S i) s).
Proof.
  revert i. induction s as [|a s IH]; intros i; simpl; [done|].
  destruct i as [|i].
  - intros [= ->]. rewrite append_nil, Nat.sub_0_r. by rewrite substring_all.
  - intros Hi. rewrite append_cons. f_equal. by apply IH.
Qed.

Lemma noDot_LastIndexByte t : noDot t → strings_.LastIndexByte t "." = (-1)%Z.
Proof.
  intros Ht. pose proof (LastIndexByte_bounds t ".").
  destruct (Z.leb_spec 0 (strings_.LastIndexByte t ".")) as [Hr|Hr]; [|lia].
  by apply LastIndexByte_get, Ht in Hr.
Qed.

Lemma splitArg_app p t :
  p ≠ EmptyString → noDot t →
  splitArg (p +:+ "." +:+ t) = Some {| pkg := p; typ := t |}.
Proof.
  intros Hp Ht. unfold splitArg.
  assert (strings_.LastIndexByte (p +:+ "." +:+ t) "."
          = Z.of_nat (String.length p)) as ->.
  { rewrite LastIndexByte_app, append_cons, append_nil. simpl.
    rewrite (noDot_LastIndexByte t Ht). simpl. lia. }
  destruct p as [|a p]; [done|].
  destruct (Z.ltb_spec (Z.of_nat (String.length (String a p))) 1) as [Hl|_];
    [simpl in Hl; lia|].
  unfold strings_.slice_to, strings_.slice_from. rewrite Nat2Z.id. f_equal. f_equal.
  - apply substring_prefix.
  - rewrite <-append_assoc.
    replace (Z.to_nat (Z.of_nat (String.length (String a p)) + 1))
      with (String.length (String a p +:+ ".")) by (rewrite length_app; simpl; lia).
    rewrite (length_app (_ +:+ _)), Nat.add_comm, Nat.add_sub.
    apply substring_suffix.
Qed.

Lemma splitArg_None arg : splitArg arg = None ↔ refused arg.
Proof.
  unfold splitArg, refused.
  destruct (Z.ltb_spec (strings_.LastIndexByte arg ".") 1) as [Hl|Hl]; split;
    try done.
  - intros _ i Hi%LastIndexByte_last. lia.
  - intros Hr. specialize (Hr _ (LastIndexByte_get arg "." ltac:(lia))). lia.
Qed.

Lemma splitArg_Some arg a :
  splitArg arg = Some a →
  arg = pkg a +:+ "." +:+ typ a ∧ pkg a ≠ EmptyString ∧ noDot (typ a).
Proof.
  unfold splitArg.
  destruct (Z.ltb_spec (strings_.LastIndexByte arg ".") 1) as [|Hl]; [done|].
  intros [= <-]. simpl.
  pose proof (LastIndexByte_get arg "." ltac:(lia)) as Hget.
  pose proof (cut_at _ _ _ Hget) as Hcut.
  unfold strings_.slice_to, strings_.slice_from.
  replace (Z.to_nat (strings_.LastIndexByte arg "." + 1))
    with (S (Z.to_nat (strings_.LastIndexByte arg "."))) by lia.
  set (i := Z.to_nat (strings_.LastIndexByte arg ".")) in *.
  set (p := String.substring 0 i arg) in *.
  set (t := String.substring (S i) (String.length arg - S i) arg) in *.
  assert (String.length p = i) as Hlen.
  { pose proof (LastIndexByte_bounds arg ".").
    apply length_substring_0. lia. }
  split; [done|]. split.
  - intros Hp. rewrite Hp in Hlen. simpl in Hlen. lia.
  - intros j Hj.
    assert (String.get (String.length (p +:+ ".") + j) arg = Some "."%char) as Hd.
    { clearbody p t. rewrite Hcut.
      change (p +:+ String "." t) with (p +:+ "." +:+ t).
      rewrite <-append_assoc. by rewrite get_app_r. }
    apply LastIndexByte_last in Hd. rewrite length_app, Hlen in Hd.
    simpl in Hd. lia.
Qed.

Lemma parseArgs_refuses args arg :
  arg ∈ args → splitArg arg = None →
  ∃ bad, bad ∈ args ∧ splitArg bad = None ∧ parseArgs args = inl bad.
Proof.
  induction args as [|x args IH]; [by intros ?%elem_of_nil|].
  intros Hin Harg. simpl.
  destruct (splitArg x) eqn:Hx.
  - apply elem_of_cons in Hin as [->|Hin]; [congruence|].
    destruct (IH Hin Harg) as (bad & ? & ? & ->).
    exists bad. by rewrite elem_of_cons; auto.
  - exists x. by rewrite elem_of_cons; auto.
Qed.

Lemma main_parse_refused h fl args bad :
  parseArgs args = inl bad → main h fl args = stop (Fatalf (ExpectedPkgType bad)).
Proof. destruct args; [done|]. unfold main. by intros ->. Qed.

Lemma splitArg_splitsInto arg a : splitArg arg = Some a ↔ splitsInto arg a.
Proof.
  split; [apply splitArg_Some|].
  destruct a as [p t]. intros (-> & Hp & Ht). by apply splitArg_app.
Qed.

(** The loop succeeds exactly with the pairs of its arguments, in order. *)
Lemma parseArgs_pairs args argTypes :
  parseArgs args = inr argTypes ↔ Forall2 splitsInto args argTypes.
Proof.
  revert argTypes. induction args as [|arg args IH]; intros argTypes; simpl.
  - split; [intros [= <-]; constructor|by intros ->%Forall2_nil_inv_l].
  - destruct (splitArg arg) as [a|] eqn:Ha.
    + destruct (parseArgs args) as [bad|l] eqn:Hl.
      * split; [done|].
        intros (a' & l' & _ & Hl'%IH & _)%Forall2_cons_inv_l. done.
      * split.
        -- intros [= <-]. constructor; [by apply splitArg_splitsInto|by apply IH].
        -- intros (a' & l' & Ha'%splitArg_splitsInto & Hl'%IH & ->)%Forall2_cons_inv_l.
           congruence.
    + split; [done|].
      intros (a' & l' & Ha'%splitArg_splitsInto & _)%Forall2_cons_inv_l.
      congruence.
Qed.

Lemma parseArgs_accepts args :
  Forall (λ arg, ¬ refused arg) args → ∃ argTypes, parseArgs args = inr argTypes.
Proof.
  induction 1 as [|arg args Harg _ [l IH]]; simpl; [eauto|].
  destruct (splitArg arg) eqn:Ha; [|by apply splitArg_None in Ha].
  rewrite IH. eauto.
Qed.

(** The loop stops at the first argument that is refused. *)
Lemma parseArgs_first_refused pre bad post :
  Forall (λ arg, ¬ refused arg) pre → refused bad →
  parseArgs (pre ++ bad :: post) = inl bad.
Proof.
  intros Hpre Hbad%splitArg_None.
  induction Hpre as [|arg pre Harg _ IH]; simpl; [by rewrite Hbad|].
  destruct (splitArg arg) eqn:Ha; [|by apply splitArg_None in Ha].
  by rewrite IH.
Qed.

End split.

(** C5.  Every argument is split at its last ['.'] into the package
    before it and the type name after it: the loop over the command line
    succeeds exactly with the list of these pairs, one per argument and in
    the order of the arguments, and a run that goes on loads the packages
    of these pairs and resolves these pairs.  Exactly the arguments
    without a ['.'] past index 0 are refused, and when the command line
    holds one, the program ends in the [log.Fatalf] whose format is
    "Expected [pkg].[type], not %q", on the first such argument, and
    writes nothing to standard output. *)
Theorem splitArg_last_dot :
  (∀ p t, p ≠ EmptyString → noDot t →
     splitArg (p +:+ "." +:+ t) = Some {| pkg := p; typ := t |})
  ∧ (∀ arg a, splitArg arg = Some a →
       arg = pkg a +:+ "." +:+ typ a ∧ pkg a ≠ EmptyString ∧ noDot (typ a))
  ∧ (∀ arg, splitArg arg = None ↔ refused arg)
  ∧ (∀ h fl args arg, arg ∈ args → refused arg →
       ∃ bad, bad ∈ args ∧ refused bad
         ∧ main h fl args = stop (Fatalf (ExpectedPkgType bad))
         ∧ stdout (main h fl args) = EmptyString
         ∧ fatal_format (ExpectedPkgType bad : Fatal (LoadError h) Object GoType)
           = "Expected [pkg].[type], not %q")
  ∧ (∀ args argTypes,
       parseArgs args = inr argTypes ↔ Forall2 splitsInto args argTypes)
  ∧ (∀ args, Forall (λ arg, ¬ refused arg) args →
       ∃ argTypes, parseArgs args = inr argTypes)
  ∧ (∀ h fl pre bad post,
       Forall (λ arg, ¬ refused arg) pre → refused bad →
       parseArgs (pre ++ bad :: post) = inl bad
       ∧ main h fl (pre ++ bad :: post) = stop (Fatalf (ExpectedPkgType bad)))
  ∧ (∀ h fl args argTypes err,
       args ≠ [] → Forall2 splitsInto args argTypes →
       Load h {| ParseComments := comments fl; ImportPkgs := pkg <$> argTypes |}
         = inl err →
       main h fl args = stop (Fatalf (ErrorLoading err)))
  ∧ (∀ h fl args,
       stopped (main h fl args) = None →
       ∃ argTypes prog typs,
         Forall2 splitsInto args argTypes
         ∧ Load h {| ParseComments := comments fl;
                     ImportPkgs := pkg <$> argTypes |} = inr prog
         ∧ resolveArgs h prog argTypes = inr typs).
Proof.
  split; [exact splitArg_app|]. split; [exact splitArg_Some|].
  split; [exact splitArg_None|]. split.
  { intros h fl args arg Hin Hr%splitArg_None.
    destruct (parseArgs_refuses args arg Hin Hr) as (bad & Hbad & Hnone & Hp).
    exists bad. rewrite (main_parse_refused h fl args bad Hp).
    by rewrite <-splitArg_None. }
  split; [exact parseArgs_pairs|]. split; [exact parseArgs_accepts|].
  split; [|split].
  - intros h fl pre bad post Hpre Hbad.
    pose proof (parseArgs_first_refused pre bad post Hpre Hbad) as Hp.
    split; [done|]. by apply main_parse_refused.
  - intros h fl args argTypes err Hargs Hp%parseArgs_pairs Hl.
    unfold main. destruct args; [done|]. by rewrite Hp, Hl.
  - intros h fl args. unfold main. destruct args as [|arg args]; [done|].
    destruct (parseArgs (arg :: args)) as [|argTypes] eqn:Hp; [done|].
    destruct (Load h _) as [|prog] eqn:Hl; [done|].
    destruct (resolveArgs h prog argTypes) as [|typs] eqn:Hr; [done|].
    intros _. exists argTypes, prog, typs. by rewrite <-parseArgs_pairs.
Qed.

(** The arguments [bytes.Reader] and [a.b.Reader] are cut into their
    pairs, in order; of [time.Duration], [.x] and [Reader] the program
    reports [.x], the first that is refused. *)
Lemma splitArg_last_dot_witness :
  splitArg "a.b.Reader" = Some {| pkg := "a.b"; typ := "Reader" |}
  ∧ Forall2 splitsInto ["bytes.Reader"; "a.b.Reader"]
      [{| pkg := "bytes"; typ := "Reader" |};
       {| pkg := "a.b"; typ := "Reader" |}]
  ∧ main Demo.raw (Demo.flags false true false)
      ["time.Duration"; ".x"; "Reader"]
    = stop (Fatalf (ExpectedPkgType ".x")).
Proof.
  destruct splitArg_last_dot
    as (Hsplit & _ & Hnone & _ & Hpairs & _ & Hfirst & _).
  split; [|split].
  - apply (Hsplit "a.b" "Reader"); [done|].
    intros i. by do 7 (destruct i as [|i]; [done|]).
  - by apply (Hpairs ["bytes.Reader"; "a.b.Reader"]).
  - apply (Hfirst Demo.raw (Demo.flags false true false)
             ["time.Duration"] ".x" ["Reader"]).
    + constructor; [|constructor]. intros Hr.
      by specialize (Hr 4%nat eq_refl).
    + intros [|i]; [done|]. by do 2 (destruct i as [|i]; [done|]).
Defined.

(** ** The per-type map *)

Section sigs.
Context (h : Host) (private : bool).

Abbreviation Sig := (Signature h).
Abbreviation methods := (gmap string (fn Sig)).

Lemma addMethod_lookup (sigs : methods) (m : Selection Sig) k :
  addMethod h private sigs m !! k =
  if decide (methodName m = k ∧ wanted h private k = true)
  then Some (entry m) else sigs !! k.
Proof.
  unfold addMethod, wanted, methodName, entry.
  destruct (decide _) as [[<- Hw]|Hn].
  - rewrite Hw. apply lookup_insert_eq.
  - destruct (private || IsExported h (Name (Obj m))) eqn:Hw; [|done].
    apply lookup_insert_ne. intros <-. auto.
Qed.

Lemma foldl_addMethod_Some (ms : list (Selection Sig)) (sigs : methods) k v :
  foldl (addMethod h private) sigs ms !! k = Some v →
  sigs !! k = Some v
  ∨ ∃ m, m ∈ ms ∧ methodName m = k ∧ wanted h private k = true ∧ v = entry m.
Proof.
  revert sigs. induction ms as [|m ms IH]; intros sigs; simpl; [auto|].
  intros [Hk|(m' & ? & ? & ? & ?)]%IH.
  - rewrite addMethod_lookup in Hk. case_decide as Hd; [|auto].
    destruct Hd. simplify_eq. right. exists m. by rewrite elem_of_cons; auto.
  - right. exists m'. by rewrite elem_of_cons; auto.
Qed.

Lemma foldl_addMethod_mono (ms : list (Selection Sig)) (sigs : methods) k :
  is_Some (sigs !! k) → is_Some (foldl (addMethod h private) sigs ms !! k).
Proof.
  revert sigs. induction ms as [|m ms IH]; intros sigs; simpl; [done|].
  intros Hk. apply IH. rewrite addMethod_lookup. by case_decide.
Qed.

Lemma foldl_addMethod_elem (ms : list (Selection Sig)) (sigs : methods) m :
  m ∈ ms → wanted h private (methodName m) = true →
  is_Some (foldl (addMethod h private) sigs ms !! methodName m).
Proof.
  revert sigs. induction ms as [|x ms IH]; intros sigs; [by intros ?%elem_of_nil|].
  intros [->|Hin]%elem_of_cons Hw; simpl; [|by apply IH].
  apply foldl_addMethod_mono. rewrite addMethod_lookup.
  by rewrite decide_True.
Qed.

Lemma foldl_addMethod_other (ms : list (Selection Sig)) (sigs : methods) k :
  (∀ m, m ∈ ms → methodName m ≠ k) →
  foldl (addMethod h private) sigs ms !! k = sigs !! k.
Proof.
  revert sigs. induction ms as [|x ms IH]; intros sigs Hne; simpl; [done|].
  rewrite IH by (intros; apply Hne; rewrite elem_of_cons; auto).
  rewrite addMethod_lookup, decide_False; [done|].
  intros [? _]. eapply Hne; [|done]. by rewrite elem_of_cons; auto.
Qed.

Lemma foldl_addMethod_NoDup (ms : list (Selection Sig)) (sigs : methods) m :
  NoDup (methodName <$> ms) → m ∈ ms →
  wanted h private (methodName m) = true →
  foldl (addMethod h private) sigs ms !! methodName m = Some (entry m).
Proof.
  revert sigs. induction ms as [|x ms IH]; intros sigs; [by intros _ ?%elem_of_nil|].
  rewrite fmap_cons, NoDup_cons. intros [Hx Hnd] [->|Hin]%elem_of_cons Hw; simpl.
  - rewrite foldl_addMethod_other.
    + rewrite addMethod_lookup. by rewrite decide_True.
    + intros m' Hm' Heq. apply Hx. rewrite <-Heq.
      by apply list_elem_of_fmap_2.
  - by apply IH.
Qed.

Lemma methodSigs_Some t k v :
  methodSigs h private t !! k = Some v →
  ∃ m, m ∈ NewMethodSet h t ∧ methodName m = k
       ∧ wanted h private k = true ∧ v = entry m.
Proof.
  unfold methodSigs.
  by intros [Hv|(m & ? & ? & ? & ?)]%foldl_addMethod_Some; [|eauto 6].
Qed.

Lemma methodSigs_is_Some t k :
  is_Some (methodSigs h private t !! k)
  ↔ wanted h private k = true ∧ ∃ m, m ∈ NewMethodSet h t ∧ methodName m = k.
Proof.
  split.
  - intros [v (m & ? & ? & ? & _)%methodSigs_Some]. eauto.
  - intros [Hw (m & Hm & <-)]. by apply foldl_addMethod_elem.
Qed.

Lemma methodSigs_NoDup t m :
  NoDup (methodName <$> NewMethodSet h t) → m ∈ NewMethodSet h t →
  wanted h private (methodName m) = true →
  methodSigs h private t !! methodName m = Some (entry m).
Proof. apply foldl_addMethod_NoDup. Qed.

(** C4.  The map of a type has an entry for a method of its method set
    exactly when the method's name is exported or the private flag is
    set; every entry is the name, signature and object of a method of the
    method set; and, the names of a method set being distinct, each method
    that is let in is stored under its name. *)
Theorem methodSigs_exported (t : GoType) :
  (∀ m, m ∈ NewMethodSet h t →
     (is_Some (methodSigs h private t !! methodName m)
      ↔ private || IsExported h (methodName m) = true))
  ∧ (∀ k v, methodSigs h private t !! k = Some v →
       ∃ m, m ∈ NewMethodSet h t ∧ methodName m = k ∧ v = entry m)
  ∧ (NoDup (methodName <$> NewMethodSet h t) →
       ∀ m, m ∈ NewMethodSet h t →
         private || IsExported h (methodName m) = true →
         methodSigs h private t !! methodName m = Some (entry m)).
Proof.
  split; [|split].
  - intros m Hm. rewrite methodSigs_is_Some. unfold wanted.
    split; [by intros [? _]|eauto].
  - intros k v (m & ? & ? & _ & ?)%methodSigs_Some. eauto.
  - intros Hnd m Hm Hw. by apply methodSigs_NoDup.
Qed.

End sigs.

(** C4 on the pointer to [bufio.Reader]: [Read] is in the map, [reset] is
    in it only with the private flag. *)
Lemma methodSigs_exported_witness :
  is_Some (methodSigs Demo.raw false (Pointer (Named "bufio.Reader")) !! "Read")
  ∧ methodSigs Demo.raw false (Pointer (Named "bufio.Reader")) !! "reset" = None
  ∧ methodSigs Demo.raw true (Pointer (Named "bufio.Reader")) !! "reset"
    = Some (entry (Demo.method "reset" 204 Demo.SReset)).
Proof.
  pose proof (methodSigs_exported Demo.raw false (Pointer (Named "bufio.Reader")))
    as (Hdom & _ & _).
  pose proof (methodSigs_exported Demo.raw true (Pointer (Named "bufio.Reader")))
    as (_ & _ & Hval).
  split; [|split].
  - apply (Hdom (Demo.method "Read" 201 (Demo.SRead "p"))); [|done].
    apply list_elem_of_here.
  - destruct (methodSigs _ _ _ !! "reset") eqn:Hl; [|done].
    assert (false || Demo.isExported "reset" = true) as Hf; [|done].
    apply (Hdom (Demo.method "reset" 204 Demo.SReset)).
    + do 3 apply list_elem_of_further. apply list_elem_of_here.
    + change (methodName (Demo.method "reset" 204 Demo.SReset)) with "reset".
      by rewrite Hl.
  - assert (NoDup (methodName <$>
              NewMethodSet Demo.raw (Pointer (Named "bufio.Reader")))) as Hnd
      by (apply (bool_decide_unpack _); vm_compute; exact I).
    apply (Hval Hnd (Demo.method "reset" 204 Demo.SReset)); [|done].
    do 3 apply list_elem_of_further. apply list_elem_of_here.
Defined.

(** ** The intersection loop *)

Section common.
Context (h : Host) (private : bool).

Abbreviation Sig := (Signature h).
Abbreviation methods := (gmap string (fn Sig)).

Lemma lookup_intersect (c sigs : methods) k v :
  intersect h c sigs !! k = Some v ↔ c !! k = Some v ∧ keeps h sigs k v = true.
Proof.
  unfold intersect. rewrite map_lookup_filter_Some. simpl.
  by rewrite Is_true_true.
Qed.

Lemma intersect_subseteq (c sigs : methods) : intersect h c sigs ⊆ c.
Proof. apply map_filter_subseteq. Qed.

Lemma foldl_commonStep_Some (c : methods) ts :
  foldl (commonStep h private) (Some c) ts
  = Some (foldl (λ c u, intersect h c (typeSigs h private u)) c ts).
Proof. revert c. induction ts as [|u ts IH]; intros c; simpl; [done|apply IH]. Qed.

Lemma commonLoop_cons t ts :
  commonLoop h private (t :: ts)
  = Some (foldl (λ c u, intersect h c (typeSigs h private u))
                (typeSigs h private t) ts).
Proof. unfold commonLoop. simpl. apply foldl_commonStep_Some. Qed.

Lemma commonLoop_snoc ts u :
  ts ≠ [] →
  commonLoop h private (ts ++ [u])
  = Some (intersect h (commonMethods h private ts) (typeSigs h private u)).
Proof.
  destruct ts as [|t ts]; [done|]. intros _.
  unfold commonMethods, commonMap, commonLoop. rewrite foldl_app. simpl.
  by rewrite foldl_commonStep_Some.
Qed.

Lemma lookup_foldl_intersect (c : methods) ts k v :
  foldl (λ c u, intersect h c (typeSigs h private u)) c ts !! k = Some v
  ↔ c !! k = Some v ∧ ∀ u, u ∈ ts → keeps h (typeSigs h private u) k v = true.
Proof.
  revert c. induction ts as [|u ts IH]; intros c; simpl.
  - split; [intros ?; split; [done|]; by intros ? ?%elem_of_nil|by intros [? _]].
  - rewrite IH, lookup_intersect. split.
    + intros [[Hc Hu] Hts]. split; [done|].
      intros u' [->|?]%elem_of_cons; auto.
    + intros [Hc Hall]. split; [split; [done|]|].
      * apply Hall, list_elem_of_here.
      * intros u' ?. by apply Hall, list_elem_of_further.
Qed.

(** What the loop leaves in [common]: the entries of the first type that
    every later type keeps. *)
Lemma lookup_commonMethods t ts k v :
  commonMethods h private (t :: ts) !! k = Some v
  ↔ typeSigs h private t !! k = Some v
    ∧ ∀ u, u ∈ ts → keeps h (typeSigs h private u) k v = true.
Proof.
  unfold commonMethods. rewrite commonLoop_cons. simpl.
  apply lookup_foldl_intersect.
Qed.

End common.

Section common_properties.
Context (h : Host) (private : bool).

Lemma keeps_Some (sigs : gmap string (fn (Signature h))) k v :
  keeps h sigs k v = true
  ↔ ∃ s, sigs !! k = Some s
         ∧ Identical h (fnSignature v) (fnSignature s) = true.
Proof.
  unfold keeps. destruct (sigs !! k) as [s|].
  - split; [eauto|]. by intros (? & [= <-] & ?).
  - split; [done|]. by intros (? & ? & ?).
Qed.

Section identity.
Hypothesis Hrefl : ∀ s, Identical h s s = true.
Hypothesis Hsym : ∀ s s', Identical h s s' = true → Identical h s' s = true.
Hypothesis Htrans : ∀ s s' s'',
  Identical h s s' = true → Identical h s' s'' = true →
  Identical h s s'' = true.

(** Membership in the common map, by the maps of the types. *)
Lemma common_in_every_map t ts k :
  is_Some (commonMethods h private (t :: ts) !! k)
  ↔ (∀ u, u ∈ t :: ts → is_Some (typeSigs h private u !! k))
    ∧ (∀ u u' s s', u ∈ t :: ts → u' ∈ t :: ts →
         typeSigs h private u !! k = Some s →
         typeSigs h private u' !! k = Some s' →
         Identical h (fnSignature s) (fnSignature s') = true).
Proof.
  split.
  - intros [v [Hv Hts]%lookup_commonMethods].
    assert (∀ u s, u ∈ t :: ts → typeSigs h private u !! k = Some s →
              Identical h (fnSignature v) (fnSignature s) = true) as Hid.
    { intros u s [->|Hu]%elem_of_cons Hs.
      - rewrite Hv in Hs. injection Hs as <-. apply Hrefl.
      - apply Hts, keeps_Some in Hu as (s0 & Hs0 & ?). congruence. }
    split.
    + intros u [->|Hu]%elem_of_cons; [by eexists|].
      apply Hts, keeps_Some in Hu as (s & -> & _). by eexists.
    + intros u u' s s' Hu Hu' Hs Hs'.
      eapply Htrans; [apply Hsym|]; eauto.
  - intros [Hdom Hid].
    destruct (Hdom t (list_elem_of_here _ _)) as [v Hv].
    exists v. apply lookup_commonMethods. split; [done|].
    intros u Hu. apply keeps_Some.
    destruct (Hdom u (list_elem_of_further _ _ _ Hu)) as [s Hs].
    exists s. split; [done|].
    eapply Hid; [| |done..]; [apply list_elem_of_here|by apply list_elem_of_further].
Qed.

(** The same, by the method sets of the normalized types, for a name that
    the export filter lets in. *)
Lemma common_in_every_method_set t ts k :
  (∀ u, u ∈ t :: ts →
        NoDup (methodName <$> NewMethodSet h (normalize h u))) →
  wanted h private k = true →
  is_Some (commonMethods h private (t :: ts) !! k)
  ↔ (∀ u, u ∈ t :: ts →
          ∃ m, m ∈ NewMethodSet h (normalize h u) ∧ methodName m = k)
    ∧ (∀ u u' m m', u ∈ t :: ts → u' ∈ t :: ts →
         m ∈ NewMethodSet h (normalize h u) →
         m' ∈ NewMethodSet h (normalize h u') →
         methodName m = k → methodName m' = k →
         Identical h (SelType m) (SelType m') = true).
Proof.
  intros Hnd Hw. rewrite common_in_every_map. split.
  - intros [Hdom Hid]. split.
    + intros u Hu. by apply Hdom, methodSigs_is_Some in Hu as [_ ?].
    + intros u u' m m' Hu Hu' Hm Hm' <- Hk.
      apply (Hid u u' (entry m) (entry m') Hu Hu').
      * by apply methodSigs_NoDup; [apply Hnd|..].
      * rewrite <-Hk in Hw |- *. by apply methodSigs_NoDup; [apply Hnd|..].
  - intros [Hdom Hid]. split.
    + intros u Hu. apply methodSigs_is_Some. auto.
    + intros u u' s s' Hu Hu'.
      intros (m & ? & ? & _ & ->)%methodSigs_Some.
      intros (m' & ? & ? & _ & ->)%methodSigs_Some.
      by apply (Hid u u' m m').
Qed.

(** C1.  With signature identity an equivalence, a name is in the common
    map exactly when the map of every listed type has it and any two of
    those maps bind it to identical signatures.  The map of the first
    type is where the loop starts, and each later type removes from the
    common map the names it lacks or binds to a signature that is not
    identical, and nothing else.  In terms of the method sets of the
    normalized types, whose names are distinct: a name the export filter
    lets in is common exactly when every method set has a method of that
    name and any two such methods have identical signatures, and no other
    name is common. *)
Theorem common_is_intersection (t : GoType) (ts : list GoType) :
  (∀ k, is_Some (commonMethods h private (t :: ts) !! k)
     ↔ (∀ u, u ∈ t :: ts → is_Some (typeSigs h private u !! k))
       ∧ (∀ u u' s s', u ∈ t :: ts → u' ∈ t :: ts →
            typeSigs h private u !! k = Some s →
            typeSigs h private u' !! k = Some s' →
            Identical h (fnSignature s) (fnSignature s') = true))
  ∧ commonLoop h private [t] = Some (typeSigs h private t)
  ∧ (∀ u k v,
       commonMethods h private ((t :: ts) ++ [u]) !! k = Some v
       ↔ commonMethods h private (t :: ts) !! k = Some v
         ∧ ∃ s, typeSigs h private u !! k = Some s
                ∧ Identical h (fnSignature v) (fnSignature s) = true)
  ∧ (∀ k, wanted h private k = false →
          commonMethods h private (t :: ts) !! k = None)
  ∧ ((∀ u, u ∈ t :: ts →
           NoDup (methodName <$> NewMethodSet h (normalize h u))) →
     ∀ k, wanted h private k = true →
       (is_Some (commonMethods h private (t :: ts) !! k)
        ↔ (∀ u, u ∈ t :: ts →
                ∃ m, m ∈ NewMethodSet h (normalize h u) ∧ methodName m = k)
          ∧ (∀ u u' m m', u ∈ t :: ts → u' ∈ t :: ts →
               m ∈ NewMethodSet h (normalize h u) →
               m' ∈ NewMethodSet h (normalize h u') →
               methodName m = k → methodName m' = k →
               Identical h (SelType m) (SelType m') = true))).
Proof.
  split; [apply common_in_every_map|]. split; [done|].
  split; [|split].
  - intros u k v. unfold commonMethods at 1.
    rewrite commonLoop_snoc by done. simpl.
    by rewrite lookup_intersect, keeps_Some.
  - intros k Hw. apply eq_None_not_Some.
    intros [v [(m & _ & _ & ? & _)%methodSigs_Some _]%lookup_commonMethods].
    congruence.
  - intros Hnd k Hw. by apply common_in_every_method_set.
Qed.

End identity.

(** C8.  After every number of iterations the common map is included in
    the map of the first type, and a further type only shrinks it; so
    each entry is the signature and object of a method of the first
    type's method set, and the doc comment written for a name, when doc
    comments are asked for, is the one found on the path that encloses
    the position of that method of the first type. *)
Theorem common_from_first_type (t : GoType) (ts : list GoType) :
  (∀ n c, commonLoop h private (take n (t :: ts)) = Some c →
          c ⊆ typeSigs h private t)
  ∧ (∀ u, commonMethods h private ((t :: ts) ++ [u])
          ⊆ commonMethods h private (t :: ts))
  ∧ (∀ k v, commonMethods h private (t :: ts) !! k = Some v →
       ∃ m, m ∈ NewMethodSet h (normalize h t) ∧ methodName m = k
            ∧ v = entry m)
  ∧ (∀ fl prog name text,
       comments fl = true →
       methodText h fl prog (commonMethods h private (t :: ts)) name
         = inr text →
       ∃ m, m ∈ NewMethodSet h (normalize h t) ∧ methodName m = name
         ∧ typeSigs h private t !! name = Some (entry m)
         ∧ PathEnclosingInterval prog (Pos (Obj m)) ≠ []
         ∧ text =
             foldl Fprintln EmptyString
               (firstDoc (removelast (PathEnclosingInterval prog (Pos (Obj m)))))
             +:+ tab +:+ name
             +:+ strings_.TrimPrefix (SignatureString h (SelType m)) "func"
             +:+ nl).
Proof.
  assert (∀ k v, commonMethods h private (t :: ts) !! k = Some v →
            ∃ m, m ∈ NewMethodSet h (normalize h t) ∧ methodName m = k
                 ∧ v = entry m) as Hentry.
  { intros k v [Hv _]%lookup_commonMethods.
    apply methodSigs_Some in Hv as (m & ? & ? & _ & ?). eauto. }
  split; [|split; [|split]]; [| |done|].
  - intros [|n] c; [done|]. simpl take. rewrite commonLoop_cons.
    intros [= <-]. apply map_subseteq_spec. intros k v.
    by intros [? _]%lookup_foldl_intersect.
  - intros u. unfold commonMethods at 1. rewrite commonLoop_snoc by done.
    apply intersect_subseteq.
  - intros fl prog name text Hc. unfold methodText. rewrite Hc.
    destruct (commonMethods h private (t :: ts) !! name) as [v|] eqn:Hv; [|done].
    destruct (Hentry _ _ Hv) as (m & Hm & Hname & ->).
    apply lookup_commonMethods in Hv as [Hv _].
    unfold docComment. simpl.
    destruct (PathEnclosingInterval prog (Pos (Obj m))) as [|node path] eqn:Hp;
      [done|].
    intros [= <-]. exists m. by rewrite Hp.
Qed.

End common_properties.

Lemma sigEq_refl s : Demo.sigEq s s = true.
Proof. by destruct s. Qed.

Lemma sigEq_sym s s' : Demo.sigEq s s' = true → Demo.sigEq s' s = true.
Proof. by destruct s, s'. Qed.

Lemma sigEq_trans s s' s'' :
  Demo.sigEq s s' = true → Demo.sigEq s' s'' = true → Demo.sigEq s s'' = true.
Proof. by destruct s, s', s''. Qed.

(** C1 on [bytes.Reader], [bufio.Reader] and [io.Reader]: [Read] is
    common to the three, since it is in the map of each with identical
    signatures. *)
Lemma common_is_intersection_witness :
  is_Some (commonMethods Demo.raw false
             [Named "bytes.Reader"; Named "bufio.Reader"; Named "io.Reader"]
           !! "Read").
Proof.
  apply (proj1 (common_is_intersection Demo.raw false
                  sigEq_refl sigEq_sym sigEq_trans
                  (Named "bytes.Reader")
                  [Named "bufio.Reader"; Named "io.Reader"])).
  split.
  - intros u Hu. repeat (apply elem_of_cons in Hu as [->|Hu]); [by eexists..|].
    by apply elem_of_nil in Hu.
  - intros u u' s s' Hu Hu'.
    repeat (apply elem_of_cons in Hu as [->|Hu]);
      repeat (apply elem_of_cons in Hu' as [->|Hu']);
      try (by apply elem_of_nil in Hu); try (by apply elem_of_nil in Hu');
      by intros [= <-] [= <-].
Defined.

(** C8 on [io.Reader], [bytes.Reader] and [bufio.Reader] with doc
    comments: the comment written for [Read] is that of [io.Reader]. *)
Lemma common_from_first_type_witness :
  ∃ m, m ∈ NewMethodSet Demo.raw (Named "io.Reader")
    ∧ Pos (Obj m) = 301
    ∧ methodText Demo.raw (Demo.flags true false false)
        {| Imported := ∅; PathEnclosingInterval := Demo.path true |}
        (commonMethods Demo.raw false
           [Named "io.Reader"; Named "bytes.Reader"; Named "bufio.Reader"])
        "Read"
      = inr ("// Read reads into p." +:+ nl +:+ tab
             +:+ "Read(p []byte) (n int, err error)" +:+ nl).
Proof.
  destruct (common_from_first_type Demo.raw false (Named "io.Reader")
              [Named "bytes.Reader"; Named "bufio.Reader"])
    as (_ & _ & _ & Hdoc).
  destruct (Hdoc (Demo.flags true false false)
              {| Imported := ∅; PathEnclosingInterval := Demo.path true |}
              "Read"
              ("// Read reads into p." +:+ nl +:+ tab
               +:+ "Read(p []byte) (n int, err error)" +:+ nl)
              eq_refl eq_refl) as (m & Hm & Hname & Hsig & _).
  exists m. split; [done|]. split; [|reflexivity].
  apply list_elem_of_singleton in Hm. by subst m.
Defined.

(** ** Runs that succeed *)

Section runs.
Context (h : Host).

Lemma parseArgs_length args argTypes :
  parseArgs args = inr argTypes → length argTypes = length args.
Proof.
  revert argTypes. induction args as [|arg args IH]; intros argTypes; simpl.
  - by intros [= <-].
  - destruct (splitArg arg); [|done].
    destruct (parseArgs args); [done|]. intros [= <-]. simpl. by rewrite IH.
Qed.

Lemma resolveArgs_length prog argTypes typs :
  resolveArgs h prog argTypes = inr typs → length typs = length argTypes.
Proof.
  revert typs. induction argTypes as [|a argTypes IH]; intros typs; simpl.
  - by intros [= <-].
  - destruct (resolveArg h prog a); [done|].
    destruct (resolveArgs h prog argTypes); [done|].
    intros [= <-]. simpl. by rewrite IH.
Qed.

Lemma resolveArg_Named prog a t :
  resolveArg h prog a = inr t → ∃ n, t = Named n.
Proof.
  unfold resolveArg. destruct (Imported prog !! pkg a); [|done].
  destruct (Lookup _ _) as [obj|]; [|done].
  destruct (ObjType obj); [|done..]. intros [= <-]. eauto.
Qed.

Lemma resolveArgs_Named prog argTypes typs :
  resolveArgs h prog argTypes = inr typs →
  ∀ t, t ∈ typs → ∃ n, t = Named n.
Proof.
  revert typs. induction argTypes as [|a argTypes IH]; intros typs; simpl.
  - intros [= <-] t Ht. by apply elem_of_nil in Ht.
  - destruct (resolveArg h prog a) as [|t0] eqn:Ha; [done|].
    destruct (resolveArgs h prog argTypes); [done|].
    intros [= <-] t [->|Ht]%elem_of_cons; [by eapply resolveArg_Named|eauto].
Qed.

(** A run that does not stop went through every phase. *)
Lemma main_succeeds fl args :
  stopped (main h fl args) = None →
  ∃ argTypes prog typs src,
    parseArgs args = inr argTypes
    ∧ Load h {| ParseComments := comments fl; ImportPkgs := pkg <$> argTypes |}
      = inr prog
    ∧ resolveArgs h prog argTypes = inr typs
    ∧ length typs = length args
    ∧ renderInterface h fl prog (commonMethods h (private fl) typs) = inr src
    ∧ stdout (main h fl args) =
        (if header fl
         then headerText h (normalize h <$> typs)
                (commonMethods h (private fl) typs)
         else EmptyString) +:+ src.
Proof.
  unfold main. destruct args as [|arg args]; [done|].
  destruct (parseArgs (arg :: args)) as [|argTypes] eqn:Hp; [done|].
  destruct (Load h _) as [|prog] eqn:Hl; [done|].
  destruct (resolveArgs h prog argTypes) as [|typs] eqn:Hr; [done|].
  destruct (renderInterface h fl prog _) as [|src] eqn:Hs; [done|].
  intros _. exists argTypes, prog, typs, src.
  repeat split; try done.
  by rewrite (resolveArgs_length _ _ _ Hr), (parseArgs_length _ _ Hp).
Qed.

(** C2.  When the program succeeds, every method of the common map, which
    is what the printed interface declares, is in the method set of each
    listed type after normalization, under the same name and with an
    identical signature. *)
Theorem listed_types_implement
    (Hrefl : ∀ s, Identical h s s = true) fl args :
  stopped (main h fl args) = None →
  ∃ argTypes prog typs src,
    parseArgs args = inr argTypes
    ∧ Load h {| ParseComments := comments fl; ImportPkgs := pkg <$> argTypes |}
      = inr prog
    ∧ resolveArgs h prog argTypes = inr typs
    ∧ renderInterface h fl prog (commonMethods h (private fl) typs) = inr src
    ∧ stdout (main h fl args) =
        (if header fl
         then headerText h (normalize h <$> typs)
                (commonMethods h (private fl) typs)
         else EmptyString) +:+ src
    ∧ ∀ t k v,
        t ∈ normalize h <$> typs →
        commonMethods h (private fl) typs !! k = Some v →
        ∃ m, m ∈ NewMethodSet h t ∧ methodName m = k
             ∧ Identical h (fnSignature v) (SelType m) = true.
Proof.
  intros (argTypes & prog & typs & src & Hp & Hl & Hr & _ & Hs & Hout)%main_succeeds.
  exists argTypes, prog, typs, src. repeat split; try done.
  intros t k v (u & -> & Hu)%list_elem_of_fmap Hv.
  destruct typs as [|t0 ts]; [done|].
  apply lookup_commonMethods in Hv as [Hv Hts].
  apply elem_of_cons in Hu as [->|Hu].
  - apply methodSigs_Some in Hv as (m & Hm & Hname & _ & ->).
    exists m. split; [done|]. split; [done|]. apply Hrefl.
  - apply Hts, keeps_Some in Hu as (s & Hs' & Hid).
    apply methodSigs_Some in Hs' as (m & Hm & Hname & _ & ->).
    by exists m.
Qed.

End runs.

(** C2 on [bytes.Reader] and [bufio.Reader]: the program succeeds, and
    [Read] and [ReadByte], which it prints, are methods of both pointer
    types. *)
Lemma listed_types_implement_witness :
  ∃ src,
    stdout (main Demo.raw (Demo.flags false false false)
              ["bytes.Reader"; "bufio.Reader"]) = src
    ∧ ∀ t k v,
        t ∈ [Pointer (Named "bytes.Reader"); Pointer (Named "bufio.Reader")] →
        commonMethods Demo.raw false
          [Named "bytes.Reader"; Named "bufio.Reader"] !! k = Some v →
        ∃ m, m ∈ NewMethodSet Demo.raw t ∧ methodName m = k
             ∧ Identical Demo.raw (fnSignature v) (SelType m) = true.
Proof.
  destruct (listed_types_implement Demo.raw sigEq_refl
              (Demo.flags false false false) ["bytes.Reader"; "bufio.Reader"]
              eq_refl)
    as (argTypes & prog & typs & src & Hp & Hl & Hr & Hs & Hout & Himpl).
  injection Hp as <-. injection Hl as <-. injection Hr as <-.
  exists (EmptyString +:+ src). split; [exact Hout|exact Himpl].
Defined.

(** ** Pointer normalization *)

Lemma Pointer_neq t : Pointer t ≠ t.
Proof. induction t as [|t IH|]; [done| |done]. intros [= ?]. by apply IH. Qed.

(** C3, as the program has it.  A resolved type is replaced by its pointer
    type exactly when it is neither a pointer type nor an interface type,
    whatever the methods of the two are; pointer types and interface types
    are left unchanged; and a type the program resolved is a declared
    type, so that it is replaced exactly when it is not an interface. *)
Theorem normalize_wraps (h : Host) (t : GoType) :
  (normalize h t = Pointer t ↔ isPtr t = false ∧ IsInterface h t = false)
  ∧ (isPtr t = true ∨ IsInterface h t = true → normalize h t = t)
  ∧ (∀ prog a, resolveArg h prog a = inr t →
       normalize h t = if IsInterface h t then t else Pointer t).
Proof.
  unfold normalize. split; [|split].
  - destruct (isPtr t), (IsInterface h t); simpl; split; try done;
      try (by intros [??]); by intros ?%symmetry%Pointer_neq.
  - by intros [-> | ->]; [|rewrite andb_false_r].
  - intros prog a [n ->]%resolveArg_Named. simpl.
    by destruct (IsInterface h (Named n)).
Qed.

(** C3 on the host above: [bytes.Reader] becomes a pointer, [io.Reader]
    and a pointer stay as they are. *)
Lemma normalize_wraps_witness :
  normalize Demo.raw (Named "bytes.Reader") = Pointer (Named "bytes.Reader")
  ∧ normalize Demo.raw (Named "io.Reader") = Named "io.Reader"
  ∧ normalize Demo.raw (Pointer (Named "bytes.Reader"))
    = Pointer (Named "bytes.Reader").
Proof.
  split; [|split].
  - by apply (normalize_wraps Demo.raw (Named "bytes.Reader")).
  - apply (normalize_wraps Demo.raw (Named "io.Reader")). by right.
  - apply (normalize_wraps Demo.raw (Pointer (Named "bytes.Reader"))). by left.
Defined.

(** C3 as the specification words it fails: what the value form and the
    pointer form have as methods does not decide the normalization.
    [demo.Unit] and [demo.Empty] have the same (empty) method sets, as
    values and as pointers, and only the first is replaced by its pointer;
    [bytes.Reader] is replaced although its pointer has methods the value
    lacks, and [time.Duration] although its pointer has none. *)
Lemma normalize_not_by_methods :
  (¬ ∃ cond : list (Selection Demo.sig) → list (Selection Demo.sig) → bool,
       ∀ n, normalize Demo.raw (Named n) = Pointer (Named n)
            ↔ cond (NewMethodSet Demo.raw (Named n))
                   (NewMethodSet Demo.raw (Pointer (Named n))) = true)
  ∧ (normalize Demo.raw (Named "bytes.Reader") = Pointer (Named "bytes.Reader")
     ∧ NewMethodSet Demo.raw (Named "bytes.Reader") = []
     ∧ methodName <$> NewMethodSet Demo.raw (Pointer (Named "bytes.Reader"))
       = ["Read"; "ReadByte"; "reset"])
  ∧ (normalize Demo.raw (Named "time.Duration") = Pointer (Named "time.Duration")
     ∧ NewMethodSet Demo.raw (Pointer (Named "time.Duration"))
       = NewMethodSet Demo.raw (Named "time.Duration")).
Proof.
  split; [|done].
  intros [cond Hcond].
  pose proof (proj1 (Hcond "demo.Unit") eq_refl) as Hunit.
  pose proof (proj2 (Hcond "demo.Empty") Hunit) as Hempty.
  discriminate Hempty.
Qed.

(** ** Loading and resolving *)

Section resolve.
Context (h : Host).

Lemma resolveArg_unresolved prog a :
  unresolved prog a → ∃ f, resolveArg h prog a = inl (Fatalf f).
Proof.
  intros (info & Hinfo & Hobj). unfold resolveArg. rewrite Hinfo.
  destruct (Lookup info (typ a)) as [obj|]; [|eauto].
  destruct (ObjType obj) eqn:Ht; [|eauto..].
  by destruct (Hobj name).
Qed.

Lemma resolveArgs_unresolved prog argTypes a :
  (∀ b, b ∈ argTypes → is_Some (Imported prog !! pkg b)) →
  a ∈ argTypes → unresolved prog a →
  ∃ f, resolveArgs h prog argTypes = inl (Fatalf f).
Proof.
  induction argTypes as [|b argTypes IH]; [by intros _ ?%elem_of_nil|].
  intros Himp Hin Ha. simpl.
  destruct (resolveArg h prog b) as [s|t] eqn:Hb.
  - unfold resolveArg in Hb.
    destruct (Himp b (list_elem_of_here _ _)) as [info Hinfo].
    rewrite Hinfo in Hb. destruct (Lookup info (typ b)) as [obj|]; [|naive_solver].
    destruct (ObjType obj); naive_solver.
  - apply elem_of_cons in Hin as [->|Hin].
    + destruct (resolveArg_unresolved prog b Ha) as [f Hf]. congruence.
    + destruct IH as [f ->]; [|done..|eauto].
      intros ??. by apply Himp, list_elem_of_further.
Qed.

(** The failures that the program does turn into fatal errors: a package
    that does not load, a name that is not in scope, an object whose type
    is not a declared type.  Nothing is written to standard output. *)
Lemma failures_are_fatal fl args argTypes :
  args ≠ [] →
  parseArgs args = inr argTypes →
  match Load h {| ParseComments := comments fl;
                  ImportPkgs := pkg <$> argTypes |} with
  | inl err => main h fl args = stop (Fatalf (ErrorLoading err))
  | inr prog =>
      (∀ b, b ∈ argTypes → is_Some (Imported prog !! pkg b)) →
      ∀ a, a ∈ argTypes → unresolved prog a →
        ∃ f, main h fl args = stop (Fatalf f)
  end.
Proof.
  intros Hargs Hp. unfold main. destruct args as [|arg args]; [done|].
  rewrite Hp. destruct (Load h _) as [err|prog]; [done|].
  intros Himp a Ha Hun.
  destruct (resolveArgs_unresolved prog argTypes a Himp Ha Hun) as [f ->].
  eauto.
Qed.

End resolve.

(** C6 fails on the program.  [io.EOF] names a variable, which is not a
    declared type; its type, [error], is one, and that is all the program
    tests: the run does not end in a fatal error, and prints the interface
    of [error]. *)
Theorem variable_taken_for_type :
  (Kind <$> Demo.scope "io" "EOF") = Some Var
  ∧ main Demo.raw (Demo.flags false false false) ["io.EOF"]
    = printed ("interface{" +:+ nl +:+ tab +:+ "Error() string" +:+ nl
               +:+ "}" +:+ nl).
Proof. split; reflexivity. Qed.

(** ** Rendering *)

Section render.
Context (h : Host).

Abbreviation methods := (gmap string (fn (Signature h))).

Lemma append_nil_r s : s +:+ EmptyString = s.
Proof.
  induction s as [|a s IH]; rewrite ?append_nil, ?append_cons; [done|].
  by rewrite IH.
Qed.

Lemma sortedNames_Permutation (common : methods) :
  sortedNames h common ≡ₚ (map_to_list common).*1.
Proof. apply merge_sort_Permutation. Qed.

Lemma sortedNames_NoDup (common : methods) : NoDup (sortedNames h common).
Proof.
  rewrite sortedNames_Permutation. apply NoDup_fst_map_to_list.
Qed.

Lemma elem_of_sortedNames (common : methods) name :
  name ∈ sortedNames h common ↔ is_Some (common !! name).
Proof.
  rewrite sortedNames_Permutation, list_elem_of_fmap. split.
  - intros ([k v] & -> & Hkv%elem_of_map_to_list). by eexists.
  - intros [v Hv]. exists (name, v). by rewrite elem_of_map_to_list.
Qed.

Lemma sortedNames_le (common : methods) :
  StronglySorted String.le (sortedNames h common).
Proof. apply StronglySorted_merge_sort; apply _. Qed.

Lemma le_neq_Lt a b : String.le a b → a ≠ b → String.compare a b = Lt.
Proof.
  unfold String.le, String.leb. intros Hle Hne.
  destruct (String.compare a b) eqn:Hc; [|done..].
  by apply String.compare_eq_iff in Hc.
Qed.

Lemma StronglySorted_strict (l : list string) :
  StronglySorted String.le l → NoDup l →
  StronglySorted (λ a b, String.compare a b = Lt) l.
Proof.
  induction 1 as [|a l Hl IH Ha]; [constructor|].
  rewrite NoDup_cons. intros [Hnin Hnd]. constructor; [by apply IH|].
  rewrite Forall_forall in Ha |- *. intros b Hb.
  apply le_neq_Lt; [by apply Ha|]. by intros ->.
Qed.

Lemma writeMethods_texts fl prog (common : methods) names buf buf' :
  writeMethods h fl prog common names buf = inr buf'
  ↔ ∃ texts,
      Forall2 (λ name text, methodText h fl prog common name = inr text)
              names texts
      ∧ buf' = buf +:+ concatAll texts.
Proof.
  revert buf. induction names as [|name names IH]; intros buf; simpl.
  - split.
    + intros [= <-]. exists []. split; [constructor|].
      by rewrite append_nil_r.
    + intros (texts & ->%Forall2_nil_inv_l & ->). by rewrite append_nil_r.
  - destruct (methodText h fl prog common name) as [s|text] eqn:Ht.
    + split; [done|]. intros (texts & Hall & _).
      apply Forall2_cons_inv_l in Hall as (? & ? & ? & ? & ?). congruence.
    + rewrite IH. split.
      * intros (texts & Hall & ->). exists (text :: texts).
        split; [by constructor|]. simpl. by rewrite append_assoc.
      * intros (texts & Hall & ->).
        apply Forall2_cons_inv_l in Hall as (text' & texts' & Ht' & Hall & ->).
        rewrite Ht in Ht'. injection Ht' as <-.
        exists texts'. split; [done|]. simpl. by rewrite append_assoc.
Qed.

(** Without doc comments the rendering cannot stop. *)
Lemma writeMethods_total fl prog (common : methods) names buf :
  comments fl = false →
  (∀ name, name ∈ names → is_Some (common !! name)) →
  ∃ buf', writeMethods h fl prog common names buf = inr buf'.
Proof.
  intros Hc. revert buf. induction names as [|name names IH]; intros buf Hin;
    simpl; [eauto|].
  unfold methodText at 1. rewrite Hc.
  destruct (Hin name (list_elem_of_here _ _)) as [method ->].
  apply IH. intros ??. by apply Hin, list_elem_of_further.
Qed.

Lemma renderInterface_total fl prog (common : methods) :
  comments fl = false → ∃ src, renderInterface h fl prog common = inr src.
Proof.
  intros Hc. unfold renderInterface.
  destruct (writeMethods_total fl prog common (sortedNames h common)
              (Fprintln EmptyString "package common;type T interface{") Hc)
    as [buf ->]; [|eauto].
  intros name. by rewrite elem_of_sortedNames.
Qed.

(** C9.  The names the program writes are those of the common map, each
    once, in strictly ascending order of [String.compare] (bytewise
    lexicographic order); the text given to the formatter is the opening
    line, one block per name in that order ending in the line of the
    name and its signature, and the closing brace. *)
Theorem methods_in_ascending_order fl prog (common : methods) :
  StronglySorted (λ a b, String.compare a b = Lt) (sortedNames h common)
  ∧ (∀ name, name ∈ sortedNames h common ↔ is_Some (common !! name))
  ∧ (∀ src, renderInterface h fl prog common = inr src →
       ∃ texts,
         Forall2
           (λ name text,
              ∃ method doc,
                common !! name = Some method
                ∧ text = foldl Fprintln EmptyString doc +:+ tab +:+ name
                         +:+ strings_.TrimPrefix
                               (SignatureString h (fnSignature method)) "func"
                         +:+ nl)
           (sortedNames h common) texts
         ∧ src = finish h
                   (Fprintln
                      (Fprintln EmptyString "package common;type T interface{"
                       +:+ concatAll texts) "}")).
Proof.
  split; [|split].
  - apply StronglySorted_strict; [apply sortedNames_le|apply sortedNames_NoDup].
  - apply elem_of_sortedNames.
  - intros src. unfold renderInterface.
    destruct (writeMethods h fl prog common _ _) as [|buf] eqn:Hw; [done|].
    intros [= <-]. apply writeMethods_texts in Hw as (texts & Hall & ->).
    exists texts. split; [|done].
    eapply Forall2_impl; [exact Hall|]. intros name text. cbv beta.
    unfold methodText. destruct (common !! name) as [method|]; [|done].
    destruct (if comments fl then _ else _) as [|doc]; [done|].
    intros [= <-]. by exists method, doc.
Qed.

End render.

(** C9 on [bytes.Reader] and [bufio.Reader] with private methods: the
    names come out as [Read], [ReadByte], [reset]. *)
Lemma methods_in_ascending_order_witness :
  sortedNames Demo.raw
    (commonMethods Demo.raw true [Named "bytes.Reader"; Named "bufio.Reader"])
  = ["Read"; "ReadByte"; "reset"]
  ∧ StronglySorted (λ a b, String.compare a b = Lt) ["Read"; "ReadByte"; "reset"].
Proof.
  split; [reflexivity|].
  exact (proj1 (methods_in_ascending_order Demo.raw
                  (Demo.flags false false true)
                  {| Imported := ∅; PathEnclosingInterval := Demo.path false |}
                  (commonMethods Demo.raw true
                     [Named "bytes.Reader"; Named "bufio.Reader"]))).
Defined.

(** ** The header *)

Section header.
Context (h : Host).

Lemma parseArgs_Forall2 args argTypes :
  parseArgs args = inr argTypes →
  Forall2 (λ arg a, splitArg arg = Some a) args argTypes.
Proof.
  revert argTypes. induction args as [|arg args IH]; intros argTypes; simpl.
  - intros [= <-]. constructor.
  - destruct (splitArg arg) eqn:Ha; [|done].
    destruct (parseArgs args); [done|]. intros [= <-]. constructor; auto.
Qed.

Lemma resolveArgs_Forall2 prog argTypes typs :
  resolveArgs h prog argTypes = inr typs →
  Forall2 (λ a t, resolveArg h prog a = inr t) argTypes typs.
Proof.
  revert typs. induction argTypes as [|a argTypes IH]; intros typs; simpl.
  - intros [= <-]. constructor.
  - destruct (resolveArg h prog a) eqn:Ha; [done|].
    destruct (resolveArgs h prog argTypes); [done|].
    intros [= <-]. constructor; auto.
Qed.

Lemma headerLine_normalize iface n :
  headerLine h iface (normalize h (Named n)) = declaredLine h iface (Named n).
Proof.
  unfold headerLine, declaredLine, normalize, shown. simpl.
  destruct (IsInterface h (Named n)); simpl; [done|].
  by destruct (Implements h (Named n) iface).
Qed.

Lemma headerText_declared typs common :
  (∀ t, t ∈ typs → ∃ n, t = Named n) →
  headerText h (normalize h <$> typs) common
  = "// Common interface of" +:+ nl
    +:+ concatAll (declaredLine h (ifaceMethods h common) <$> typs).
Proof.
  intros Hnamed. unfold headerText. do 3 f_equal.
  rewrite <-list_fmap_compose. apply list_fmap_ext.
  intros i t Ht%list_elem_of_lookup_2.
  destruct (Hnamed t Ht) as [n ->]. apply headerLine_normalize.
Qed.

Lemma elem_of_ifaceMethods (common : gmap string (fn (Signature h))) k s :
  (k, s) ∈ ifaceMethods h common ↔ fnSignature <$> common !! k = Some s.
Proof.
  unfold ifaceMethods. rewrite merge_sort_Permutation, elem_of_map_to_list.
  by rewrite lookup_fmap.
Qed.

(** C7.  With the header flag, what a successful run prints is the line
    "// Common interface of", then one line per argument, in the order of
    the arguments, then the interface text.  The line of an argument
    shows the declared type it resolves to when that type is an interface
    or implements the interface of the common methods, and the pointer to
    it otherwise. *)
Theorem header_lists_types fl args :
  header fl = true →
  stopped (main h fl args) = None →
  ∃ argTypes prog typs src,
    Forall2 (λ arg a, splitArg arg = Some a) args argTypes
    ∧ Forall2 (λ a t, resolveArg h prog a = inr t) argTypes typs
    ∧ renderInterface h fl prog (commonMethods h (private fl) typs) = inr src
    ∧ (∀ k s, (k, s) ∈ ifaceMethods h (commonMethods h (private fl) typs)
              ↔ fnSignature <$> commonMethods h (private fl) typs !! k = Some s)
    ∧ stdout (main h fl args) =
        "// Common interface of" +:+ nl
        +:+ concatAll
              (declaredLine h
                 (ifaceMethods h (commonMethods h (private fl) typs)) <$> typs)
        +:+ src.
Proof.
  intros Hh (argTypes & prog & typs & src & Hp & Hl & Hr & _ & Hs & Hout)%main_succeeds.
  exists argTypes, prog, typs, src.
  split; [by apply parseArgs_Forall2|]. split; [by apply resolveArgs_Forall2|].
  split; [done|]. split; [apply elem_of_ifaceMethods|].
  rewrite Hout, Hh, headerText_declared by (by eapply resolveArgs_Named).
  by rewrite !append_assoc.
Qed.

End header.

(** C7 on [time.Duration], [bytes.Reader] and [io.Reader], which have no
    common method: [time.Duration] and [bytes.Reader] are shown as values,
    since they implement the empty interface. *)
Lemma header_lists_types_witness :
  stdout (main Demo.raw (Demo.flags false true false)
            ["time.Duration"; "bytes.Reader"; "io.Reader"])
  = "// Common interface of" +:+ nl
    +:+ "// time.Duration" +:+ nl
    +:+ "// bytes.Reader" +:+ nl
    +:+ "// io.Reader" +:+ nl
    +:+ "interface{" +:+ nl +:+ "}" +:+ nl
  ∧ ∃ typs src,
      length typs = 3%nat
      ∧ stdout (main Demo.raw (Demo.flags false true false)
                  ["time.Duration"; "bytes.Reader"; "io.Reader"])
        = "// Common interface of" +:+ nl
          +:+ concatAll
                (declaredLine Demo.raw
                   (ifaceMethods Demo.raw (commonMethods Demo.raw false typs))
                 <$> typs)
          +:+ src.
Proof.
  split; [reflexivity|].
  destruct (header_lists_types Demo.raw (Demo.flags false true false)
              ["time.Duration"; "bytes.Reader"; "io.Reader"] eq_refl eq_refl)
    as (argTypes & prog & typs & src & Hargs & Htyps & _ & _ & Hout).
  exists typs, src. split; [|exact Hout].
  apply Forall2_length in Hargs, Htyps. by rewrite <-Htyps, <-Hargs.
Defined.

(** ** The two versions *)

Section versions.
Context (h : Host) (private : bool).

Abbreviation Sig := (Signature h).

Global Instance byName_total {A} : Total (@byName A).
Proof. intros x y. unfold byName. apply total, _. Qed.

Lemma old_foldl_addMethod ms (sigs : gmap string (fn Sig)) :
  foldl (Old.addMethod h private) (fnSignature <$> sigs) ms
  = fnSignature <$> foldl (addMethod h private) sigs ms.
Proof.
  revert sigs. induction ms as [|m ms IH]; intros sigs; simpl; [done|].
  rewrite <-IH. f_equal. unfold Old.addMethod, addMethod.
  destruct (private || IsExported h (Name (Obj m))); [|done].
  by rewrite fmap_insert.
Qed.

Lemma old_methodSigs t :
  Old.methodSigs h private t = fnSignature <$> methodSigs h private t.
Proof.
  unfold Old.methodSigs, methodSigs. rewrite <-old_foldl_addMethod.
  by rewrite fmap_empty.
Qed.

Lemma old_intersect (c sigs : gmap string (fn Sig)) :
  Old.intersect h (fnSignature <$> c) (fnSignature <$> sigs)
  = fnSignature <$> intersect h c sigs.
Proof.
  unfold Old.intersect, intersect. rewrite map_filter_fmap. f_equal.
  apply map_filter_ext. intros k v _. simpl.
  unfold Old.keeps, keeps. rewrite lookup_fmap.
  by destruct (sigs !! k).
Qed.

Lemma old_commonLoop typs :
  Old.commonLoop h private typs
  = (λ c : gmap string (fn Sig), fnSignature <$> c)
    <$> commonLoop h private typs.
Proof.
  unfold Old.commonLoop, commonLoop.
  change (@None (gmap string Sig))
    with ((λ c : gmap string (fn Sig), fnSignature <$> c) <$> None).
  generalize (@None (gmap string (fn Sig))).
  induction typs as [|t typs IH]; intros common; simpl; [done|].
  rewrite <-IH. f_equal. unfold Old.commonStep, commonStep.
  destruct common as [c|]; simpl.
  - by rewrite old_methodSigs, old_intersect.
  - by rewrite old_methodSigs.
Qed.

Lemma old_commonMethods typs :
  Old.commonMethods h private typs
  = fnSignature <$> commonMethods h private typs.
Proof.
  unfold Old.commonMethods, commonMethods, commonMap. rewrite old_commonLoop.
  destruct (commonLoop h private typs); simpl; [done|]. by rewrite fmap_empty.
Qed.

Lemma ifaceMethods_names (common : gmap string (fn Sig)) :
  (ifaceMethods h common).*1 = sortedNames h common.
Proof.
  apply (Sorted_unique String.le).
  - apply (Sorted_fmap _ byName); [done|]. apply Sorted_merge_sort, _.
  - apply Sorted_merge_sort, _.
  - unfold ifaceMethods, sortedNames.
    rewrite !merge_sort_Permutation, map_to_list_fmap, <-list_fmap_compose.
    apply reflexive_eq, list_fmap_ext. by intros i [k v] _.
Qed.

End versions.

Section versions_text.
Context (h : Host).

Lemma methodText_plain fl prog (common : gmap string (fn (Signature h))) k s :
  comments fl = false →
  fnSignature <$> common !! k = Some s →
  methodText h fl prog common k = inr (methodLine h (k, s)).
Proof.
  intros Hc Hs. unfold methodText, methodLine. rewrite Hc.
  destruct (common !! k) as [method|]; [|done].
  injection Hs as <-. by rewrite append_nil.
Qed.

Lemma texts_methodLine fl prog (common : gmap string (fn (Signature h)))
    (l : list (string * Signature h)) texts :
  comments fl = false →
  (∀ k s, (k, s) ∈ l → fnSignature <$> common !! k = Some s) →
  Forall2 (λ name text, methodText h fl prog common name = inr text)
          l.*1 texts →
  texts = methodLine h <$> l.
Proof.
  intros Hc. revert texts. induction l as [|[k s] l IH]; intros texts Hl; simpl.
  - by intros ->%Forall2_nil_inv_l.
  - intros (text & texts' & Ht & Hall & ->)%Forall2_cons_inv_l.
    rewrite (methodText_plain fl prog common k s Hc) in Ht
      by apply Hl, list_elem_of_here.
    injection Ht as <-. f_equal. apply IH; [|done].
    intros ???. by apply Hl, list_elem_of_further.
Qed.

Lemma renderInterface_plain fl prog (common : gmap string (fn (Signature h))) :
  comments fl = false →
  renderInterface h fl prog common
  = inr (finish h
           (Fprintln
              (Fprintln EmptyString "package common;type T interface{"
               +:+ concatAll (methodLine h <$> ifaceMethods h common)) "}")).
Proof.
  intros Hc. destruct (renderInterface_total h fl prog common Hc) as [src Hsrc].
  rewrite Hsrc. unfold renderInterface in Hsrc.
  destruct (writeMethods h fl prog common _ _) as [|buf] eqn:Hw; [done|].
  injection Hsrc as <-.
  apply writeMethods_texts in Hw as (texts & Hall & ->).
  rewrite <-ifaceMethods_names in Hall.
  apply texts_methodLine in Hall as ->; [done..|].
  intros k s. apply elem_of_ifaceMethods.
Qed.

(** C10, as the two programs have it.  For the same arguments and private
    flag, and no doc comments, the two versions stop in the same way; they
    compute the same map from names to signatures (the current one keeps
    the method objects besides) and so the same interface, its methods in
    ascending order of name; and they print the same header.  The current
    version gives the formatter one line per method of that interface
    between the opening line and the closing brace; the older one gives it
    what [types.TypeString] makes of the interface.  Each prints what
    comes of its source, so the two print the same text exactly when the
    formatter and the cut at "interface" make the same of the two
    sources. *)
Theorem versions_agree_on_methods fl ofl args :
  Old.private ofl = private fl →
  Old.comment ofl = header fl →
  comments fl = false →
  (∀ typs, Old.commonMethods h (private fl) typs
           = fnSignature <$> commonMethods h (private fl) typs)
  ∧ stopped (Old.main h ofl args) = stopped (main h fl args)
  ∧ (stopped (main h fl args) = None →
     ∃ typs iface hd,
       iface = ifaceMethods h (commonMethods h (private fl) typs)
       ∧ Old.ifaceMethods h (Old.commonMethods h (private fl) typs) = iface
       ∧ iface.*1 = sortedNames h (commonMethods h (private fl) typs)
       ∧ stdout (main h fl args) =
           hd +:+ finish h
                    (Fprintln
                       (Fprintln EmptyString "package common;type T interface{"
                        +:+ concatAll (methodLine h <$> iface)) "}")
       ∧ stdout (Old.main h ofl args) =
           hd +:+ finish h ("package common;type T "
                            +:+ InterfaceString h iface)
       ∧ (stdout (main h fl args) = stdout (Old.main h ofl args)
          ↔ finish h
              (Fprintln
                 (Fprintln EmptyString "package common;type T interface{"
                  +:+ concatAll (methodLine h <$> iface)) "}")
            = finish h ("package common;type T "
                        +:+ InterfaceString h iface))).
Proof.
  intros Hp Hh Hc. split; [apply old_commonMethods|].
  unfold main, Old.main. rewrite Hp, Hh, Hc.
  destruct args as [|arg args]; [by split|].
  destruct (parseArgs (arg :: args)) as [|argTypes]; [by split|].
  destruct (Load h _) as [|prog]; [by split|].
  destruct (resolveArgs h prog argTypes) as [|typs]; [by split|].
  rewrite (renderInterface_plain fl prog _ Hc). split; [done|]. intros _.
  assert (Old.ifaceMethods h (Old.commonMethods h (private fl) typs)
          = ifaceMethods h (commonMethods h (private fl) typs)) as Hiface.
  { unfold Old.ifaceMethods. by rewrite old_commonMethods. }
  assert (Old.headerText h (normalize h <$> typs)
            (Old.commonMethods h (private fl) typs)
          = headerText h (normalize h <$> typs)
              (commonMethods h (private fl) typs)) as Hhd.
  { unfold Old.headerText, headerText. by rewrite Hiface. }
  eexists typs, _, _. split; [reflexivity|].
  split; [done|]. split; [apply ifaceMethods_names|].
  split; [reflexivity|]. simpl. unfold Old.renderInterface.
  rewrite Hhd, Hiface. split; [done|].
  split; [by intros ?%(inj (String.app _))|by intros ->].
Qed.

End versions_text.

(** C10 on [bytes.Reader] and [bufio.Reader]: both versions succeed, on
    the interface of [Read] and [ReadByte]. *)
Lemma versions_agree_on_methods_witness :
  (ifaceMethods Demo.raw
     (commonMethods Demo.raw false
        [Named "bytes.Reader"; Named "bufio.Reader"])).*1
  = ["Read"; "ReadByte"]
  ∧ stopped (Old.main Demo.raw {| Old.comment := true; Old.private := false |}
               ["bytes.Reader"; "bufio.Reader"])
    = stopped (main Demo.raw (Demo.flags false true false)
                 ["bytes.Reader"; "bufio.Reader"]).
Proof.
  split; [reflexivity|].
  exact (proj1 (proj2 (versions_agree_on_methods Demo.raw
                         (Demo.flags false true false)
                         {| Old.comment := true; Old.private := false |}
                         ["bytes.Reader"; "bufio.Reader"]
                         eq_refl eq_refl eq_refl))).
Defined.

(** C10 as the specification words it fails: the two versions do not
    print the same text.  For types without a common method the current
    version hands the formatter braces on two lines and the older one
    [{}], and gofmt leaves each as it is. *)
Lemma versions_print_differently :
  commonMethods (Demo.host Demo.gofmtEmpty) false
    [Named "time.Duration"; Named "io.Reader"] = ∅
  ∧ stdout (main (Demo.host Demo.gofmtEmpty) (Demo.flags false false false)
              ["time.Duration"; "io.Reader"])
    = "interface {" +:+ nl +:+ "}" +:+ nl
  ∧ stdout (Old.main (Demo.host Demo.gofmtEmpty)
              {| Old.comment := false; Old.private := false |}
              ["time.Duration"; "io.Reader"])
    = "interface{}" +:+ nl
  ∧ stdout (main (Demo.host Demo.gofmtEmpty) (Demo.flags false false false)
              ["time.Duration"; "io.Reader"])
    ≠ stdout (Old.main (Demo.host Demo.gofmtEmpty)
                {| Old.comment := false; Old.private := false |}
                ["time.Duration"; "io.Reader"]).
Proof. repeat split; try reflexivity. by vm_compute. Qed.

(** * Further properties of the program *)

(** ** The private flag and the order of the types *)

Section flags_and_order.
Context (h : Host).

Lemma foldl_addMethod_private ms (sigsF sigsT : gmap string (fn (Signature h))) :
  (∀ k, sigsF !! k = if IsExported h k then sigsT !! k else None) →
  ∀ k, foldl (addMethod h false) sigsF ms !! k
       = if IsExported h k then foldl (addMethod h true) sigsT ms !! k
         else None.
Proof.
  revert sigsF sigsT. induction ms as [|m ms IH]; intros sigsF sigsT Hs; simpl;
    [done|].
  apply IH. intros k. rewrite !addMethod_lookup. unfold wanted. simpl.
  specialize (Hs k). destruct (IsExported h k) eqn:He.
  - destruct (decide (methodName m = k)) as [Hk|Hk].
    + by rewrite !decide_True.
    + rewrite !decide_False; [done|by intros [? _]..].
  - rewrite decide_False; [done|]. by intros [_ ?].
Qed.

Lemma methodSigs_private t k :
  methodSigs h false t !! k
  = if IsExported h k then methodSigs h true t !! k else None.
Proof.
  apply foldl_addMethod_private. intros k'. rewrite !lookup_empty.
  by destruct (IsExported h k').
Qed.

(** X1.  The private flag only adds unexported names: without it the
    common map is the common map with it, cut down to the exported names,
    entry for entry. *)
Theorem private_only_adds (typs : list GoType) (k : string) :
  commonMethods h false typs !! k
  = if IsExported h k then commonMethods h true typs !! k else None.
Proof.
  destruct typs as [|t ts].
  { unfold commonMethods. simpl. rewrite !lookup_empty.
    by destruct (IsExported h k). }
  apply option_eq. intros v. rewrite lookup_commonMethods.
  unfold typeSigs, keeps. rewrite methodSigs_private.
  destruct (IsExported h k) eqn:He.
  - rewrite lookup_commonMethods. unfold typeSigs, keeps.
    split; intros [Hv Hts]; (split; [done|]); intros u Hu;
      specialize (Hts u Hu); by rewrite methodSigs_private, He in *.
  - split; [by intros [? _]|done].
Qed.

Lemma common_later_subseteq (private : bool) t ts ts' :
  (∀ u, u ∈ ts → u ∈ ts') →
  commonMethods h private (t :: ts') ⊆ commonMethods h private (t :: ts).
Proof.
  intros Hsub. apply map_subseteq_spec. intros k v.
  rewrite !lookup_commonMethods. intros [Hv Hts]. split; auto.
Qed.

(** X2.  The common map shrinks as later types are added and depends on
    them as a set: if every type listed after the first in one list is
    listed after the same first type in another, the common map of the
    second is included in that of the first; the two are equal when the
    later types are the same up to order and repetition. *)
Theorem later_types_as_a_set (private : bool) (t : GoType)
    (ts ts' : list GoType) :
  ((∀ u, u ∈ ts → u ∈ ts') →
   commonMethods h private (t :: ts') ⊆ commonMethods h private (t :: ts))
  ∧ ((∀ u, u ∈ ts ↔ u ∈ ts') →
     commonMethods h private (t :: ts) = commonMethods h private (t :: ts')).
Proof.
  split; [apply common_later_subseteq|].
  intros Heq. apply (anti_symm (⊆)); apply common_later_subseteq;
    intros u; by rewrite Heq.
Qed.

Lemma sortedNames_dom (c c' : gmap string (fn (Signature h))) :
  (∀ k, is_Some (c !! k) ↔ is_Some (c' !! k)) →
  sortedNames h c = sortedNames h c'.
Proof.
  intros Hdom. apply (Sorted_unique String.le).
  - apply Sorted_merge_sort, _.
  - apply Sorted_merge_sort, _.
  - apply NoDup_Permutation; [apply sortedNames_NoDup..|].
    intros k. by rewrite !elem_of_sortedNames.
Qed.

(** X3.  With signature identity an equivalence, the names the program
    prints do not depend on the order of the arguments, nor on a type
    being listed more than once: two non-empty lists of the same types
    give the same sorted list of names.  (The signatures and doc comments
    printed are those of the first type, and do depend on it.) *)
Theorem names_independent_of_order (private : bool)
    (Hrefl : ∀ s, Identical h s s = true)
    (Hsym : ∀ s s', Identical h s s' = true → Identical h s' s = true)
    (Htrans : ∀ s s' s'', Identical h s s' = true →
                Identical h s' s'' = true → Identical h s s'' = true)
    (l l' : list GoType) :
  (∀ u, u ∈ l ↔ u ∈ l') →
  sortedNames h (commonMethods h private l)
  = sortedNames h (commonMethods h private l').
Proof.
  intros Heq. destruct l as [|t ts], l' as [|t' ts']; [done| | |].
  - specialize (Heq t'). rewrite elem_of_nil, elem_of_cons in Heq.
    destruct Heq as [_ []]. by left.
  - specialize (Heq t). rewrite elem_of_nil, elem_of_cons in Heq.
    destruct Heq as [[] _]. by left.
  - apply sortedNames_dom. intros k.
    rewrite !(common_in_every_map h private Hrefl Hsym Htrans).
    split; intros [Hdom Hid]; split.
    + intros u Hu. by apply Hdom, Heq.
    + intros u u' s s' Hu Hu'. apply Hid; by apply Heq.
    + intros u Hu. by apply Hdom, Heq.
    + intros u u' s s' Hu Hu'. apply Hid; by apply Heq.
Qed.

End flags_and_order.

(** X2 on the small host: [io.Reader] listed once or twice, before or
    after [bufio.Reader], leaves the same common map for [bytes.Reader]. *)
Lemma later_types_as_a_set_witness :
  commonMethods Demo.raw false
    [Named "bytes.Reader"; Named "io.Reader"; Named "bufio.Reader"]
  = commonMethods Demo.raw false
      [Named "bytes.Reader"; Named "bufio.Reader"; Named "io.Reader";
       Named "io.Reader"].
Proof.
  apply (later_types_as_a_set Demo.raw false (Named "bytes.Reader")
           [Named "io.Reader"; Named "bufio.Reader"]
           [Named "bufio.Reader"; Named "io.Reader"; Named "io.Reader"]).
  intros u. rewrite !elem_of_cons, !elem_of_nil. tauto.
Defined.

(** X3 on the small host: [Read] and [ReadByte], whichever of
    [bytes.Reader] and [bufio.Reader] comes first. *)
Lemma names_independent_of_order_witness :
  sortedNames Demo.raw
    (commonMethods Demo.raw false [Named "bytes.Reader"; Named "bufio.Reader"])
  = sortedNames Demo.raw
      (commonMethods Demo.raw false [Named "bufio.Reader"; Named "bytes.Reader"]).
Proof.
  apply (names_independent_of_order Demo.raw false
           sigEq_refl sigEq_sym sigEq_trans).
  intros u. rewrite !elem_of_cons, !elem_of_nil. tauto.
Defined.

(** ** Panics *)

Section panics.
Context (h : Host).

Lemma resolveArgs_no_panic prog argTypes :
  (∀ a, a ∈ argTypes → is_Some (Imported prog !! pkg a)) →
  resolveArgs h prog argTypes ≠ inl Panic.
Proof.
  induction argTypes as [|a argTypes IH]; intros Himp; simpl; [done|].
  destruct (resolveArg h prog a) as [s|t] eqn:Ha.
  - unfold resolveArg in Ha.
    destruct (Himp a (list_elem_of_here _ _)) as [info Hinfo].
    rewrite Hinfo in Ha. destruct (Lookup info (typ a)) as [obj|]; [|congruence].
    destruct (ObjType obj); congruence.
  - destruct (resolveArgs h prog argTypes) as [s|ts] eqn:Hr; [|done].
    intros [= ->]. apply IH; [|done].
    intros ??. by apply Himp, list_elem_of_further.
Qed.

(** X4.  Without doc comments the program does not panic, provided the
    loader lists every imported package in [Imported] when it succeeds:
    a run prints the interface or ends in the usage message or a fatal
    error. *)
Theorem no_panic_without_comments fl args :
  comments fl = false →
  (∀ conf prog, Load h conf = inr prog →
     ∀ p, p ∈ ImportPkgs conf → is_Some (Imported prog !! p)) →
  stopped (main h fl args) ≠ Some Panic.
Proof.
  intros Hc Hload. unfold main.
  destruct args as [|arg args]; [done|].
  destruct (parseArgs (arg :: args)) as [|argTypes]; [done|].
  destruct (Load h _) as [|prog] eqn:Hl; [done|].
  destruct (resolveArgs h prog argTypes) as [s|typs] eqn:Hr.
  - simpl. intros [= ->]. revert Hr. apply resolveArgs_no_panic.
    intros a Ha. apply (Hload _ _ Hl). simpl. by apply list_elem_of_fmap_2.
  - by rewrite (renderInterface_plain h fl prog _ Hc).
Qed.

Lemma docComment_inl prog (method : fn (Signature h)) s :
  docComment h prog method = inl s
  ↔ s = Panic ∧ PathEnclosingInterval prog (Pos (fnObj method)) = [].
Proof.
  unfold docComment.
  destruct (PathEnclosingInterval prog (Pos (fnObj method))); split;
    try done; [by intros [= <-]|by intros [-> _]|by intros [_ ?]].
Qed.

Lemma methodText_inl fl prog (common : gmap string (fn (Signature h))) name s :
  comments fl = true → is_Some (common !! name) →
  methodText h fl prog common name = inl s
  ↔ s = Panic
    ∧ ∃ method, common !! name = Some method
        ∧ PathEnclosingInterval prog (Pos (fnObj method)) = [].
Proof.
  intros Hc [method Hm]. unfold methodText. rewrite Hm, Hc.
  destruct (docComment h prog method) as [s'|doc] eqn:Hd.
  - apply docComment_inl in Hd as [-> Hp]. split.
    + intros [= <-]. eauto.
    + by intros [-> _].
  - split; [done|]. intros (_ & method' & [= <-] & Hp).
    assert (docComment h prog method = inl Panic) as Hd'
      by by apply docComment_inl.
    congruence.
Qed.

Lemma writeMethods_inl fl prog (common : gmap string (fn (Signature h)))
    names buf :
  (∃ s, writeMethods h fl prog common names buf = inl s)
  ↔ ∃ name s, name ∈ names ∧ methodText h fl prog common name = inl s.
Proof.
  revert buf. induction names as [|name names IH]; intros buf; simpl.
  - split; [by intros [? ?]|]. by intros (? & ? & ?%elem_of_nil & _).
  - destruct (methodText h fl prog common name) as [s|text] eqn:Ht.
    + split; [|eauto]. intros _. exists name, s. split; [|done].
      apply list_elem_of_here.
    + rewrite IH. split.
      * intros (name' & s & ? & ?). exists name', s.
        split; [by apply list_elem_of_further|done].
      * intros (name' & s & [->|?]%elem_of_cons & Hs); [congruence|eauto].
Qed.

Lemma writeMethods_stop fl prog (common : gmap string (fn (Signature h)))
    names buf s :
  comments fl = true →
  (∀ name, name ∈ names → is_Some (common !! name)) →
  writeMethods h fl prog common names buf = inl s → s = Panic.
Proof.
  intros Hc. revert buf. induction names as [|name names IH]; intros buf Hin;
    simpl; [done|].
  destruct (methodText h fl prog common name) as [s'|text] eqn:Ht.
  - intros [= <-].
    by apply methodText_inl in Ht as [-> _];
      [|done|apply Hin, list_elem_of_here].
  - apply IH. intros ??. by apply Hin, list_elem_of_further.
Qed.

(** X5.  With doc comments the rendering panics exactly when some common
    method has a position that no file encloses (the path is empty, and
    [path[:len(path)-1]] is out of range), as for the method [Error] of
    the predeclared [error]; it stops in no other way. *)
Theorem comments_panic_on_empty_path fl prog
    (common : gmap string (fn (Signature h))) :
  comments fl = true →
  ((∃ s, renderInterface h fl prog common = inl s)
   ↔ ∃ name method, common !! name = Some method
       ∧ PathEnclosingInterval prog (Pos (fnObj method)) = [])
  ∧ (∀ s, renderInterface h fl prog common = inl s → s = Panic).
Proof.
  intros Hc. unfold renderInterface. split.
  - transitivity (∃ s, writeMethods h fl prog common (sortedNames h common)
                         (Fprintln EmptyString "package common;type T interface{")
                       = inl s).
    { destruct (writeMethods _ _ _ _ _ _) as [s0|buf0].
      - split; eauto.
      - split; by intros [? ?]. }
    rewrite writeMethods_inl. split.
    + intros (name & s & Hn%elem_of_sortedNames & Hs).
      apply methodText_inl in Hs as (_ & method & ? & ?); eauto.
    + intros (name & method & Hm & Hp). exists name, Panic.
      split; [apply elem_of_sortedNames; eauto|].
      apply methodText_inl; eauto.
  - intros s. destruct (writeMethods _ _ _ _ _ _) as [s'|] eqn:Hw; [|done].
    intros [= <-]. eapply writeMethods_stop; [done| |done].
    intros name. by rewrite elem_of_sortedNames.
Qed.

End panics.

Lemma demo_load_imports format conf prog :
  Load (Demo.host format) conf = inr prog →
  ∀ p, p ∈ ImportPkgs conf → is_Some (Imported prog !! p).
Proof.
  simpl. unfold Demo.load.
  destruct (filter _ (ImportPkgs conf)); [|done]. intros [= <-] p Hp. simpl.
  destruct (list_to_map _ !! p) eqn:Hl; [done|].
  apply not_elem_of_list_to_map in Hl. destruct Hl.
  rewrite <-list_fmap_compose. simpl.
  apply list_elem_of_fmap. by exists p.
Qed.

(** X4 on the small host: [bytes.Reader] and [os.File] end in a fatal
    error, not in a panic. *)
Lemma no_panic_without_comments_witness :
  stopped (main Demo.raw (Demo.flags false true true) ["bytes.Reader"; "os.File"])
  ≠ Some Panic.
Proof.
  apply (no_panic_without_comments Demo.raw (Demo.flags false true true)
           ["bytes.Reader"; "os.File"] eq_refl (demo_load_imports _)).
Defined.

(** X5 on the small host: with doc comments [io.EOF], whose type [error]
    has the method [Error] at no position, makes the program panic, and
    [io.Reader] does not. *)
Lemma comments_panic_on_empty_path_witness :
  stopped (main Demo.raw (Demo.flags true false false) ["io.EOF"]) = Some Panic
  ∧ (∃ s, renderInterface Demo.raw (Demo.flags true false false)
            {| Imported := ∅; PathEnclosingInterval := Demo.path true |}
            (commonMethods Demo.raw false [Named "error"]) = inl s)
  ∧ stopped (main Demo.raw (Demo.flags true false false) ["io.Reader"]) = None.
Proof.
  split; [reflexivity|]. split; [|reflexivity].
  apply (comments_panic_on_empty_path Demo.raw (Demo.flags true false false)
           {| Imported := ∅; PathEnclosingInterval := Demo.path true |}
           (commonMethods Demo.raw false [Named "error"]) eq_refl).
  exists "Error", (entry (Demo.method "Error" 0 Demo.SError)). by split.
Defined.

(** ** Doc comments *)

Section docs.
Context (h : Host).

Lemma foldl_Fprintln buf doc :
  foldl Fprintln buf doc = buf +:+ concatAll ((λ c, c +:+ nl) <$> doc).
Proof.
  revert buf. induction doc as [|c doc IH]; intros buf; simpl.
  - by rewrite append_nil_r.
  - rewrite IH. unfold Fprintln. by rewrite !append_assoc.
Qed.

Lemma firstDoc_app pre nodes :
  Forall (λ node, nodeDoc node = None) pre →
  firstDoc (pre ++ nodes) = firstDoc nodes.
Proof. induction 1 as [|node pre Hn _ IH]; simpl; [done|]. by rewrite Hn. Qed.

Lemma removelast_app_cons {A} (l : list A) x y l' :
  removelast (l ++ x :: y :: l') = l ++ x :: removelast (y :: l').
Proof. induction l as [|z l IH]; [done|]. simpl in *. rewrite IH. by destruct l. Qed.

Lemma removelast_snoc {A} (l : list A) x : removelast (l ++ [x]) = l.
Proof. induction l as [|z l IH]; [done|]. simpl in *. rewrite IH. by destruct l. Qed.

(** X6.  With doc comments, the comment written above a method is the
    [Doc] of the innermost node of the enclosing path that is a function
    declaration or a field and has one, each of its lines followed by a
    newline; the outermost node of the path is never looked at, and when
    no node before it has a comment the method line is written alone. *)
Theorem doc_of_innermost_declaration fl prog
    (common : gmap string (fn (Signature h))) name method :
  comments fl = true →
  common !! name = Some method →
  (∀ pre node post doc,
     PathEnclosingInterval prog (Pos (fnObj method)) = pre ++ node :: post →
     post ≠ [] →
     Forall (λ n, nodeDoc n = None) pre →
     nodeDoc node = Some doc →
     methodText h fl prog common name
     = inr (concatAll ((λ c, c +:+ nl) <$> doc)
            +:+ methodLine h (name, fnSignature method)))
  ∧ (∀ nodes outer,
       PathEnclosingInterval prog (Pos (fnObj method)) = nodes ++ [outer] →
       Forall (λ n, nodeDoc n = None) nodes →
       methodText h fl prog common name
       = inr (methodLine h (name, fnSignature method))).
Proof.
  intros Hc Hm. unfold methodText, docComment. rewrite Hm, Hc. split.
  - intros pre node post doc Hp Hpost Hpre Hdoc. rewrite Hp.
    destruct post as [|y post]; [done|].
    destruct (pre ++ node :: y :: post) eqn:Hl; [by destruct pre|].
    rewrite <-Hl, removelast_app_cons, firstDoc_app by done.
    simpl. rewrite Hdoc, foldl_Fprintln. by rewrite append_nil.
  - intros nodes outer Hp Hnodes. rewrite Hp.
    destruct (nodes ++ [outer]) eqn:Hl; [by destruct nodes|].
    rewrite <-Hl, removelast_snoc.
    rewrite <-(app_nil_r nodes), firstDoc_app by done. simpl.
    by rewrite append_nil.
Qed.

End docs.

(** X6 on the small host: [Read] of [io.Reader] is a field of an
    interface type; its comment is written, the nodes around it are not
    looked at. *)
Lemma doc_of_innermost_declaration_witness :
  methodText Demo.raw (Demo.flags true false false)
    {| Imported := ∅; PathEnclosingInterval := Demo.path true |}
    (commonMethods Demo.raw false [Named "io.Reader"]) "Read"
  = inr ("// Read reads into p." +:+ nl +:+ tab
         +:+ "Read(p []byte) (n int, err error)" +:+ nl).
Proof.
  apply (proj1 (doc_of_innermost_declaration Demo.raw
                  (Demo.flags true false false)
                  {| Imported := ∅; PathEnclosingInterval := Demo.path true |}
                  (commonMethods Demo.raw false [Named "io.Reader"]) "Read"
                  (entry (Demo.method "Read" 301 (Demo.SRead "p")))
                  eq_refl eq_refl)
           [OtherNode] (Field (Some ["// Read reads into p."]))
           [OtherNode; OtherNode; OtherNode] ["// Read reads into p."]);
    [reflexivity|done|by repeat constructor|done].
Defined.

(** ** Cutting the package header off *)

Section cut.
Local Open Scope nat_scope.

Lemma prefix_app sep s :
  String.prefix sep s = true ↔ ∃ post, s = sep +:+ post.
Proof.
  revert s. induction sep as [|a sep IH]; intros s.
  - split; [|by destruct s]. intros _. by exists s.
  - destruct s as [|b s]; simpl.
    + split; [done|]. by intros [post ?].
    + destruct (ascii_dec a b) as [->|Hab].
      * rewrite IH. split; intros [post Hp]; exists post.
        -- by rewrite append_cons, Hp.
        -- rewrite append_cons in Hp. by injection Hp.
      * split; [done|]. intros [post Hp]. rewrite append_cons in Hp.
        by injection Hp.
Qed.

Lemma index_first sep pre post :
  (∀ pre' post', pre +:+ sep +:+ post = pre' +:+ sep +:+ post' →
                 String.length pre ≤ String.length pre') →
  String.index 0 sep (pre +:+ sep +:+ post) = Some (String.length pre).
Proof.
  induction pre as [|a pre IH]; intros Hfirst.
  - rewrite append_nil.
    assert (String.prefix sep (sep +:+ post) = true) as Hp
      by (apply prefix_app; eauto).
    destruct (sep +:+ post) eqn:Hs; cbn [String.index]; [|by rewrite Hp].
    destruct sep; [done|by rewrite append_cons in Hs].
  - rewrite append_cons. cbn [String.index].
    destruct (String.prefix sep (String a (pre +:+ sep +:+ post))) eqn:Hp.
    + apply prefix_app in Hp as [post' Hp].
      specialize (Hfirst EmptyString post'). rewrite append_cons, append_nil in Hfirst.
      specialize (Hfirst Hp). simpl in Hfirst. lia.
    + rewrite IH; [done|]. intros pre' post' Heq.
      specialize (Hfirst (String a pre') post').
      rewrite !append_cons, Heq in Hfirst. specialize (Hfirst eq_refl).
      simpl in Hfirst. lia.
Qed.

Lemma index_none sep s :
  (∀ pre post, s ≠ pre +:+ sep +:+ post) → String.index 0 sep s = None.
Proof.
  induction s as [|a s IH]; intros Hno; cbn [String.index].
  - destruct sep; [|done]. by destruct (Hno EmptyString EmptyString).
  - destruct (String.prefix sep (String a s)) eqn:Hp.
    + apply prefix_app in Hp as [post Hp]. by destruct (Hno EmptyString post).
    + rewrite IH; [done|]. intros pre post ->.
      by destruct (Hno (String a pre) post).
Qed.

Lemma slice_from_app pre s :
  strings_.slice_from (pre +:+ s) (Z.of_nat (String.length pre)) = s.
Proof.
  unfold strings_.slice_from.
  rewrite Nat2Z.id, length_app, Nat.add_comm, Nat.add_sub.
  apply substring_suffix.
Qed.

(** X7.  Of the text it is about to print (the formatted source, or the
    source itself when [format.Source] reports an error) the program
    drops everything before the first occurrence of "interface"; a text
    without "interface" is printed whole.  Both versions end this way. *)
Theorem finish_cuts_at_interface (h : Host) (src : string) :
  (∀ pre post,
     default src (formatSource h src) = pre +:+ "interface" +:+ post →
     (∀ pre' post',
        pre +:+ "interface" +:+ post = pre' +:+ "interface" +:+ post' →
        String.length pre ≤ String.length pre') →
     finish h src = "interface" +:+ post)
  ∧ ((∀ pre post,
        default src (formatSource h src) ≠ pre +:+ "interface" +:+ post) →
     finish h src = default src (formatSource h src)).
Proof.
  unfold finish, strings_.Index. split.
  - intros pre post -> Hfirst. rewrite index_first by done.
    destruct (Z.leb_spec 0 (Z.of_nat (String.length pre))); [|lia].
    apply slice_from_app.
  - intros Hno. by rewrite index_none.
Qed.

End cut.

(** X7 on a source as gofmt returns it. *)
Lemma finish_cuts_at_interface_witness :
  finish (Demo.host Demo.gofmtEmpty)
    ("package common;type T interface{" +:+ nl +:+ "}" +:+ nl)
  = "interface {" +:+ nl +:+ "}" +:+ nl.
Proof.
  apply (proj1 (finish_cuts_at_interface (Demo.host Demo.gofmtEmpty)
                  ("package common;type T interface{" +:+ nl +:+ "}" +:+ nl))
           ("package common" +:+ nl +:+ nl +:+ "type T ")
           (" {" +:+ nl +:+ "}" +:+ nl)); [reflexivity|].
  intros pre' post' Heq.
  do 23 (destruct pre' as [|? pre']; [by vm_compute in Heq|]).
  simpl. lia.
Defined.

(** ** When the formatter fails, and when a name is not found *)

Section fallbacks.
Context (h : Host).

Lemma Index_package_header rest :
  strings_.Index ("package common;type T interface{" +:+ rest) "interface"
  = 22.
Proof. reflexivity. Qed.

Lemma finish_unformatted rest :
  formatSource h ("package common;type T interface{" +:+ rest) = None →
  finish h ("package common;type T interface{" +:+ rest)
  = "interface{" +:+ rest.
Proof.
  intros Hf. unfold finish. rewrite Hf. simpl default.
  rewrite Index_package_header. simpl.
  apply (slice_from_app "package common;type T " ("interface{" +:+ rest)).
Qed.

(** X8.  When [format.Source] reports an error on the source the program
    built, the program prints that source without its package header:
    "interface{", then what the loop wrote for each name in ascending
    order, then the closing brace, each on a line of its own. *)
Theorem prints_source_when_format_fails fl prog
    (common : gmap string (fn (Signature h))) src :
  renderInterface h fl prog common = inr src →
  ∃ texts,
    Forall2 (λ name text, methodText h fl prog common name = inr text)
            (sortedNames h common) texts
    ∧ (formatSource h
         ("package common;type T interface{" +:+ nl +:+ concatAll texts
          +:+ "}" +:+ nl) = None →
       src = "interface{" +:+ nl +:+ concatAll texts +:+ "}" +:+ nl).
Proof.
  unfold renderInterface.
  destruct (writeMethods h fl prog common _ _) as [|buf] eqn:Hw; [done|].
  intros [= <-]. apply writeMethods_texts in Hw as (texts & Hall & ->).
  exists texts. split; [done|]. intros Hf.
  unfold Fprintln. rewrite append_nil, !append_assoc.
  apply (finish_unformatted (nl +:+ concatAll texts +:+ "}" +:+ nl)).
  exact Hf.
Qed.

Lemma parseArgs_app pre arg post argTypes :
  parseArgs (pre ++ arg :: post) = inr argTypes →
  ∃ before a after,
    argTypes = before ++ a :: after
    ∧ parseArgs pre = inr before ∧ splitArg arg = Some a.
Proof.
  revert argTypes. induction pre as [|x pre IH]; intros argTypes; simpl.
  - destruct (splitArg arg) as [a|]; [|done].
    destruct (parseArgs post) as [|after]; [done|].
    intros [= <-]. by exists [], a, after.
  - destruct (splitArg x) as [b|]; [|done].
    destruct (parseArgs (pre ++ arg :: post)) as [|l]; [done|].
    intros [= <-]. destruct (IH l eq_refl) as (before & a & after & -> & -> & ?).
    by exists (b :: before), a, after.
Qed.

Lemma resolveArgs_app prog before a after typs s :
  resolveArgs h prog before = inr typs →
  resolveArg h prog a = inl s →
  resolveArgs h prog (before ++ a :: after) = inl s.
Proof.
  revert typs. induction before as [|b before IH]; intros typs; simpl.
  - by intros _ ->.
  - destruct (resolveArg h prog b); [done|].
    destruct (resolveArgs h prog before) as [|ts] eqn:Hb; [done|].
    intros _ Ha. by rewrite (IH ts eq_refl Ha).
Qed.

(** X9.  When the arguments before [arg] resolve and the type name of
    [arg] is not in the scope of its package, the run ends in the fatal
    error "Lookup of %q failed" on [arg] exactly as it was typed: the
    package and the name the argument was cut into are joined again. *)
Theorem lookup_failure_names_argument fl pre arg post
    argTypes prog before typs a info :
  parseArgs (pre ++ arg :: post) = inr argTypes →
  Load h {| ParseComments := comments fl; ImportPkgs := pkg <$> argTypes |}
    = inr prog →
  parseArgs pre = inr before →
  resolveArgs h prog before = inr typs →
  splitArg arg = Some a →
  Imported prog !! pkg a = Some info →
  Lookup info (typ a) = None →
  main h fl (pre ++ arg :: post) = stop (Fatalf (LookupFailed arg)).
Proof.
  intros Hp Hl Hpre Hres Ha Hinfo Hlook.
  destruct (parseArgs_app _ _ _ _ Hp) as (before' & a' & after & -> & Hpre' & Ha').
  assert (before' = before) as -> by congruence.
  assert (a' = a) as -> by congruence.
  assert (main h fl (pre ++ arg :: post)
          = match resolveArgs h prog (before ++ a :: after) with
            | inl s => stop s
            | inr typs =>
                match renderInterface h fl prog
                        (commonMethods h (private fl) typs) with
                | inl s => stop s
                | inr src =>
                    printed ((if header fl
                              then headerText h (normalize h <$> typs)
                                     (commonMethods h (private fl) typs)
                              else EmptyString) +:+ src)
                end
            end) as ->.
  { unfold main. destruct pre; cbn [app] in *; by rewrite Hp, Hl. }
  rewrite (resolveArgs_app prog before a after typs
             (Fatalf (LookupFailed arg)) Hres); [done|].
  unfold resolveArg. rewrite Hinfo, Hlook.
  by destruct (splitArg_Some arg a Ha) as [<- _].
Qed.

End fallbacks.

(** X8 on the small host, whose formatter always fails. *)
Lemma prints_source_when_format_fails_witness :
  stdout (main Demo.raw (Demo.flags false false false)
            ["bytes.Reader"; "bufio.Reader"])
  = "interface{" +:+ nl
    +:+ concatAll [tab +:+ "Read(b []byte) (n int, err error)" +:+ nl;
                   tab +:+ "ReadByte() (byte, error)" +:+ nl]
    +:+ "}" +:+ nl
  ∧ ∃ texts,
      Forall2
        (λ name text,
           methodText Demo.raw (Demo.flags false false false)
             {| Imported := ∅; PathEnclosingInterval := Demo.path false |}
             (commonMethods Demo.raw false
                [Named "bytes.Reader"; Named "bufio.Reader"]) name
           = inr text)
        ["Read"; "ReadByte"] texts
      ∧ "interface{" +:+ nl
        +:+ tab +:+ "Read(b []byte) (n int, err error)" +:+ nl
        +:+ tab +:+ "ReadByte() (byte, error)" +:+ nl +:+ "}" +:+ nl
        = "interface{" +:+ nl +:+ concatAll texts +:+ "}" +:+ nl.
Proof.
  split; [by vm_compute|].
  destruct (prints_source_when_format_fails Demo.raw
              (Demo.flags false false false)
              {| Imported := ∅; PathEnclosingInterval := Demo.path false |}
              (commonMethods Demo.raw false
                 [Named "bytes.Reader"; Named "bufio.Reader"])
              ("interface{" +:+ nl
               +:+ tab +:+ "Read(b []byte) (n int, err error)" +:+ nl
               +:+ tab +:+ "ReadByte() (byte, error)" +:+ nl +:+ "}" +:+ nl)
              ltac:(by vm_compute)) as (texts & Hall & Hsrc).
  exists texts. split; [exact Hall|exact (Hsrc eq_refl)].
Defined.

(** X9 on the small host: [bytes.Writer] is not in package [bytes]. *)
Lemma lookup_failure_names_argument_witness :
  main Demo.raw (Demo.flags false false false) ["bytes.Reader"; "bytes.Writer"]
  = stop (Fatalf (LookupFailed "bytes.Writer")).
Proof.
  apply (lookup_failure_names_argument Demo.raw (Demo.flags false false false)
           ["bytes.Reader"] "bytes.Writer" []
           [{| pkg := "bytes"; typ := "Reader" |};
            {| pkg := "bytes"; typ := "Writer" |}]
           {| Imported :=
                list_to_map ((λ p, (p, {| Lookup := Demo.scope p |}))
                             <$> ["bytes"; "bytes"]);
              PathEnclosingInterval := Demo.path false |}
           [{| pkg := "bytes"; typ := "Reader" |}]
           [Named "bytes.Reader"]
           {| pkg := "bytes"; typ := "Writer" |}
           {| Lookup := Demo.scope "bytes" |}).
  - by vm_compute.
  - reflexivity.
  - by vm_compute.
  - by vm_compute.
  - by vm_compute.
  - by vm_compute.
  - by vm_compute.
Defined.

(** ** The older program *)

(** X10.  The older program, which reads no doc comments, does not panic,
    provided the loader lists every imported package in [Imported] when
    it succeeds: it prints the interface or ends in the usage message or
    a fatal error. *)
Theorem old_main_no_panic (h : Host) (fl : Old.Flags) (args : list string) :
  (∀ conf prog, Load h conf = inr prog →
     ∀ p, p ∈ ImportPkgs conf → is_Some (Imported prog !! p)) →
  stopped (Old.main h fl args) ≠ Some Panic.
Proof.
  intros Hload. unfold Old.main.
  destruct args as [|arg args]; [done|].
  destruct (parseArgs (arg :: args)) as [|argTypes]; [done|].
  destruct (Load h _) as [|prog] eqn:Hl; [done|].
  destruct (resolveArgs h prog argTypes) as [s|typs] eqn:Hr; [|done].
  simpl. intros [= ->]. revert Hr. apply resolveArgs_no_panic.
  intros a Ha. apply (Hload _ _ Hl). simpl. by apply list_elem_of_fmap_2.
Qed.

(** X10 on the small host: the constant [io.SeekStart] ends the older
    program in a fatal error. *)
Lemma old_main_no_panic_witness :
  stopped (Old.main Demo.raw {| Old.comment := true; Old.private := false |}
             ["io.Reader"; "io.SeekStart"])
  ≠ Some Panic.
Proof.
  apply (old_main_no_panic Demo.raw
           {| Old.comment := true; Old.private := false |}
           ["io.Reader"; "io.SeekStart"] (demo_load_imports _)).
Defined.
